(** * Kernel PCA (crate kernel-pca): a shallow embedding of src/lib.rs,
      src/kernel.rs, src/util.rs and src/error.rs.

    The scalar type of the crate is a generic [T: Float]; it is kept generic
    here through the class [Float] below, and the theorems about arithmetic
    are stated for the real-number instance [R_Float] (floating point
    rounding is not modelled).  The decomposition routine of nalgebra
    ([DMatrix::svd]) is a parameter of [apply]: only its output shapes are
    assumed where a statement needs them. *)

From Stdlib Require Import String List Arith Lia Bool.
From Stdlib Require Import Reals Lra Permutation Sorted FunctionalExtensionality.
Import ListNotations.

(** ** src/error.rs *)

Inductive KPcaError :=
| ComputationFailure (message : string)
| InvalidConfig (message : string)
| InvalidData (message : string).

(** [lib.rs] refers to the error type as [PcaError]. *)
Definition PcaError := KPcaError.

Definition computation_failure (message : string) : KPcaError := ComputationFailure message.
Definition invalid_config (message : string) : KPcaError := InvalidConfig message.
Definition invalid_data (message : string) : KPcaError := InvalidData message.

(** ** Outcomes of a Rust call: [Ok], [Err], or a panic (an out-of-range
    slice of nalgebra, an out-of-range index). *)

Inductive outcome (A : Type) :=
| Ret (a : A)
| Raise (e : KPcaError)
| Panic.
Arguments Ret {A} a.
Arguments Raise {A} e.
Arguments Panic {A}.

Definition bind {A B} (m : outcome A) (f : A -> outcome B) : outcome B :=
  match m with
  | Ret a => f a
  | Raise e => Raise e
  | Panic => Panic
  end.

Notation "x <- m ;; f" := (bind m (fun x => f)) (at level 61, m at next level, right associativity).
Notation "m ;;; f" := (bind m (fun _ => f)) (at level 61, right associativity).

Fixpoint mapM {A B} (f : A -> outcome B) (l : list A) : outcome (list B) :=
  match l with
  | [] => Ret []
  | x :: xs => y <- f x ;; ys <- mapM f xs ;; Ret (y :: ys)
  end.

(** ** The [num::Float] interface the crate is generic over. *)

Class Float (T : Type) := {
  fzero : T;
  fone : T;
  fadd : T -> T -> T;
  fsub : T -> T -> T;
  fmul : T -> T -> T;
  fdiv : T -> T -> T;
  fneg : T -> T;
  fabs : T -> T;
  fsqrt : T -> T;
  fexp : T -> T;
  fpowf : T -> T -> T;
  flt : T -> T -> bool;
  (** [T::from(usize)], which may fail *)
  from_usize : nat -> option T
}.

#[global] Instance R_Float : Float R := {
  fzero := 0%R;
  fone := 1%R;
  fadd := Rplus;
  fsub := Rminus;
  fmul := Rmult;
  fdiv := Rdiv;
  fneg := Ropp;
  fabs := Rabs;
  fsqrt := sqrt;
  fexp := exp;
  fpowf := Rpower;
  flt a b := if Rlt_dec a b then true else false;
  from_usize n := Some (INR n)
}.

Section Crate.

Context {T : Type} `{Float T}.

(** ** src/kernel.rs *)

Inductive Kernel :=
| Linear
| RationalQuadratic (gamma alpha : T)
| SquaredExponential (gamma : T).

(** [a.iter().zip(b.iter()).fold(T::zero(), |sum, (&a, &b)| sum + a * b)] *)
Definition compute_linear (a b : list T) : T :=
  fold_left (fun sum '(x, y) => fadd sum (fmul x y)) (combine a b) fzero.

Definition sum_sq_diff (a b : list T) : T :=
  fold_left (fun sum '(x, y) => let diff := fsub x y in fadd sum (fmul diff diff))
    (combine a b) fzero.

Definition compute_rational_quadratic (a b : list T) (gamma alpha : T) : T :=
  let ssd := sum_sq_diff a b in
  fpowf (fadd fone (fmul gamma ssd)) (fneg alpha).

Definition compute_squared_exponential (a b : list T) (gamma : T) : T :=
  let ssd := sum_sq_diff a b in
  fexp (fmul (fneg gamma) ssd).

Definition compute (k : Kernel) (a b : list T) : T :=
  match k with
  | Linear => compute_linear a b
  | RationalQuadratic gamma alpha => compute_rational_quadratic a b gamma alpha
  | SquaredExponential gamma => compute_squared_exponential a b gamma
  end.

(** ** nalgebra's [DMatrix], as its dimensions and its entry function. *)

Record DMatrix := mkMat { nrows : nat; ncols : nat; get : nat -> nat -> T }.

Definition zeros (n m : nat) : DMatrix := mkMat n m (fun _ _ => fzero).

Definition identity (n m : nat) : DMatrix :=
  mkMat n m (fun i j => if i =? j then fone else fzero).

Definition from_element (n m : nat) (v : T) : DMatrix := mkMat n m (fun _ _ => v).

(** [k[(i, j)] = v] *)
Definition set_entry (k : DMatrix) (i j : nat) (v : T) : DMatrix :=
  mkMat (nrows k) (ncols k) (fun a b => if (a =? i) && (b =? j) then v else get k a b).

Definition mat_sub (a b : DMatrix) : DMatrix :=
  mkMat (nrows a) (ncols a) (fun i j => fsub (get a i j) (get b i j)).

Definition mat_mul (a b : DMatrix) : DMatrix :=
  mkMat (nrows a) (ncols b)
    (fun i j => fold_left (fun acc l => fadd acc (fmul (get a i l) (get b l j)))
                  (seq 0 (ncols a)) fzero).

(** [DMatrix::from_diagonal(&v)] *)
Definition from_diagonal (v : list T) : DMatrix :=
  mkMat (length v) (length v) (fun i j => if i =? j then nth i v fzero else fzero).

(** [m.columns(start, k)]: panics when the range leaves the matrix. *)
Definition columns (m : DMatrix) (start k : nat) : outcome DMatrix :=
  if start + k <=? ncols m
  then Ret (mkMat (nrows m) k (fun i j => get m i (start + j)))
  else Panic.

(** [v.rows(start, k)] on a column vector. *)
Definition vec_rows (v : list T) (start k : nat) : outcome (list T) :=
  if start + k <=? length v then Ret (firstn k (skipn start v)) else Panic.

(** [v[j]] *)
Definition vec_index {A} (v : list A) (j : nat) : outcome A :=
  match nth_error v j with Some a => Ret a | None => Panic end.

(** [DMatrix::from_rows]: row [i] of the result is [rows[i]]. *)
Definition from_rows (ncol : nat) (rows : list (list T)) : DMatrix :=
  mkMat (length rows) ncol (fun i j => nth j (nth i rows []) fzero).

(** [m.row_iter()], each row as the list of its entries. *)
Definition row_list (m : DMatrix) : list (list T) :=
  map (fun i => map (fun j => get m i j) (seq 0 (ncols m))) (seq 0 (nrows m)).

(** The result of [x.svd(true, false)]. *)
Record SVD := mkSVD { singular_values : list T; u : option DMatrix }.

(** ** src/lib.rs *)

Record KernelPca := mkKernelPca { kernel : Kernel; embed_dim : nat }.

Definition new (k : Kernel) (embed_dim : nat) : KernelPca := mkKernelPca k embed_dim.

Definition form_kernel_matrix (self : KernelPca) (x : list (list T)) : DMatrix :=
  let n := length x in
  fold_left
    (fun k i =>
       let k := fold_left
                  (fun k j =>
                     let kij := compute (kernel self) (nth i x []) (nth j x []) in
                     set_entry (set_entry k i j kij) j i kij)
                  (seq 0 i) k in
       set_entry k i i (compute (kernel self) (nth i x []) (nth i x [])))
    (seq 0 n) (zeros n n).

(** [for row in data { if row.len() != dim { return Err(..) } }] *)
Fixpoint check_rows (dim : nat) (rows : list (list T)) : outcome unit :=
  match rows with
  | [] => Ret tt
  | row :: rest =>
      if negb (length row =? dim)
      then Raise (invalid_data "Input data has inconsistent dimensionality across records")
      else check_rows dim rest
  end.

Definition validate (self : KernelPca) (data : list (list T)) : outcome unit :=
  if length data =? 0 then Raise (invalid_data "Input data has no records") else
  let dim := length (nth 0 data []) in
  if dim =? 0 then Raise (invalid_data "Input data has a dimensionality of zero") else
  check_rows dim data ;;;
  if embed_dim self =? 0 then Raise (invalid_config "Embedding dimension must be positive") else
  if dim <? embed_dim self then Raise (invalid_config "Embeddind dimension must be <= data dimension") else
  Ret tt.

Definition center_kernel_matrix (k : DMatrix) : outcome DMatrix :=
  let dim := nrows k in
  match from_usize dim with
  | None => Raise (computation_failure "Unable to convert dimension to float")
  | Some tdim =>
      let q := from_element dim dim (fdiv fone tdim) in
      let r := mat_sub (identity dim dim) q in
      Ret (mat_mul (mat_mul r k) r)
  end.

(** [means[j] += val]: panics out of range. *)
Definition add_at (means : list T) (j : nat) (val : T) : outcome (list T) :=
  m <- vec_index means j ;;
  Ret (firstn j means ++ fadd m val :: skipn (S j) means).

Fixpoint accumulate_row (means : list T) (j : nat) (row : list T) : outcome (list T) :=
  match row with
  | [] => Ret means
  | val :: rest => means <- add_at means j val ;; accumulate_row means (S j) rest
  end.

Fixpoint accumulate (means : list T) (x : list (list T)) : outcome (list T) :=
  match x with
  | [] => Ret means
  | row :: rest => means <- accumulate_row means 0 row ;; accumulate means rest
  end.

Definition center_data (x : list (list T)) : outcome DMatrix :=
  let dim := length (nth 0 x []) in
  match from_usize (length x) with
  | None => Raise (computation_failure "Unable to convert data length to float")
  | Some n =>
      means <- accumulate (repeat fzero dim) x ;;
      let means := map (fun m => fdiv m n) means in
      Ret (from_rows dim
             (map (fun row => firstn dim (map (fun '(v, m) => fsub v m) (combine row means))) x))
  end.

(** One column of [determine_signs]: the running (max_abs_elem, flip) pair. *)
Definition sign_step (st : T * bool) (val : T) : T * bool :=
  let '(max_abs_elem, flip) := st in
  if flt max_abs_elem (fabs val) then (fabs val, flt val fzero) else (max_abs_elem, flip).

Definition column_sign (column : list T) : T :=
  let '(_, flip) := fold_left sign_step column (fzero, false) in
  if flip then fneg fone else fone.

Definition column_entries (m : DMatrix) (j : nat) : list T :=
  map (fun i => get m i j) (seq 0 (nrows m)).

Definition determine_signs (u : DMatrix) (dim : nat) : outcome (list T) :=
  c <- columns u 0 dim ;;
  Ret (map (fun j => column_sign (column_entries c j)) (seq 0 (ncols c))).

Section Apply.

(** nalgebra's [x.svd(true, false)] *)
Variable svd : DMatrix -> SVD.

Definition apply (self : KernelPca) (data : list (list T)) : outcome (list (list T)) :=
  validate self data ;;;
  x <- match kernel self with
       | Linear => center_data data
       | _ => center_kernel_matrix (form_kernel_matrix self data)
       end ;;
  let s := svd x in
  sv_selection <- vec_rows (singular_values s) 0 (embed_dim self) ;;
  let sigma := match kernel self with
               | Linear => from_diagonal sv_selection
               | _ => from_diagonal (map fsqrt sv_selection)
               end in
  u <- match u s with
       | Some u => Ret u
       | None => Raise (computation_failure "SVD Failure")
       end ;;
  signs <- determine_signs u (embed_dim self) ;;
  u_selection <- columns u 0 (embed_dim self) ;;
  let embeddings := mat_mul u_selection sigma in
  mapM (fun row => mapM (fun '(j, val) => s <- vec_index signs j ;; Ret (fmul val s))
                         (combine (seq 0 (length row)) row))
       (row_list embeddings).

End Apply.

(** ** src/util.rs *)

(** [slice::sort_by], as the standard library runs it on short slices
    (insertion sort, [insertion_sort_shift_left]): each element is inserted
    into the sorted prefix from its right end, moving left while
    [compare(x, y) == Less].  The prefix is kept reversed here. *)
Definition is_less {A} (cmp : A -> A -> comparison) (a b : A) : bool :=
  match cmp a b with Lt => true | _ => false end.

Fixpoint insert_tail {A} (cmp : A -> A -> comparison) (x : A) (rp : list A) : list A :=
  match rp with
  | [] => [x]
  | y :: ys => if is_less cmp x y then y :: insert_tail cmp x ys else x :: y :: ys
  end.

Definition sort_by {A} (cmp : A -> A -> comparison) (l : list A) : list A :=
  rev (fold_left (fun rp x => insert_tail cmp x rp) l []).

Definition sort_indices_descending (values : list T) : list nat :=
  let inds := seq 0 (length values) in
  sort_by (fun a b => if flt (nth a values fzero) (nth b values fzero) then Gt else Lt) inds.

(** The general kernel path in the words of the specification, kept apart
    from the crate's [apply] for comparison with it: the kernel matrix, its
    double centering, a symmetric eigendecomposition [eig] (the eigenvalues,
    and a matrix whose column [r] is the eigenvector of eigenvalue [r]), the
    eigenvalue indices ranked by [sort_indices_descending], and entry [(i, j)]
    equal to [eigenvector_r[i] * sqrt(eigenvalue_r)] for the [j]-th ranked
    index [r]. *)
Definition kernel_path_as_described (eig : DMatrix -> list T * DMatrix)
    (self : KernelPca) (data : list (list T)) : outcome (list (list T)) :=
  validate self data ;;;
  x <- center_kernel_matrix (form_kernel_matrix self data) ;;
  let '(vals, vecs) := eig x in
  let ranked := firstn (embed_dim self) (sort_indices_descending vals) in
  Ret (map (fun i => map (fun r => fmul (get vecs i r) (fsqrt (nth r vals fzero))) ranked)
           (seq 0 (length data))).

End Crate.

Arguments Kernel T : clear implicits.
Arguments DMatrix T : clear implicits.
Arguments SVD T : clear implicits.
Arguments KernelPca T : clear implicits.

(** ** Validation: the checks and their order, as the claims state them. *)

Inductive err_kind := KInvalidData | KInvalidConfig | KComputationFailure.

Definition kind_of (e : KPcaError) : err_kind :=
  match e with
  | ComputationFailure _ => KComputationFailure
  | InvalidConfig _ => KInvalidConfig
  | InvalidData _ => KInvalidData
  end.

(** The error the specification's five checks, taken in order, report. *)
Definition expected_validation {T} (self : KernelPca T) (data : list (list T)) : option err_kind :=
  match data with
  | [] => Some KInvalidData
  | r0 :: _ =>
      let d := length r0 in
      if d =? 0 then Some KInvalidData
      else if existsb (fun row => negb (length row =? d)) data then Some KInvalidData
      else if embed_dim self =? 0 then Some KInvalidConfig
      else if d <? embed_dim self then Some KInvalidConfig
      else None
  end.

(** ** The Kernel Matrix Builder's loop state. *)

Section KernelMatrixDefs.

Context {T : Type} `{Float T}.

Variable self : KernelPca T.
Variable x : list (list T).

(** The value the builder stores at (a, b): the kernel of the later row with
    the earlier one. *)
Definition km_entry (a b : nat) : T :=
  compute (kernel self) (nth (Nat.max a b) x []) (nth (Nat.min a b) x []).

(** State of the matrix inside the outer iteration [i], after the inner
    iterations [j < c]. *)
Definition km_partial (i c : nat) (a b : nat) : T :=
  if (a <? i) && (b <? i) then km_entry a b
  else if ((a =? i) && (b <? c)) || ((b =? i) && (a <? c)) then km_entry a b
  else fzero.

End KernelMatrixDefs.

(** ** Reference definitions over the reals, used by the statements below. *)

Local Open Scope R_scope.

(** The kernel formulas of the specification, by index. *)
Definition sum_list (l : list R) : R := fold_right Rplus 0 l.

Definition dot_spec (a b : list R) : R :=
  sum_list (map (fun i => nth i a 0 * nth i b 0) (seq 0 (length a))).

Definition ssd_spec (a b : list R) : R :=
  sum_list (map (fun i => (nth i a 0 - nth i b 0) ^ 2) (seq 0 (length a))).

(** [(1/n) J], [J] the all-ones matrix, and [R = I - (1/n) J]. *)
Definition scale (c : R) (m : DMatrix R) : DMatrix R :=
  mkMat (nrows m) (ncols m) (fun i j => c * get m i j).

Definition all_ones (n : nat) : DMatrix R := mkMat n n (fun _ _ => 1).

Definition centering_matrix (n : nat) : DMatrix R :=
  mat_sub (identity n n) (scale (/ INR n) (all_ones n)).

(** The part of [apply] after the decomposition, as in the source. *)
Definition finish (self : KernelPca R) (s : SVD R) : outcome (list (list R)) :=
  sv_selection <- vec_rows (singular_values s) 0 (embed_dim self) ;;
  let sigma := match kernel self with
               | Linear => from_diagonal sv_selection
               | _ => from_diagonal (map fsqrt sv_selection)
               end in
  u <- match u s with
       | Some u => Ret u
       | None => Raise (computation_failure "SVD Failure")
       end ;;
  signs <- determine_signs u (embed_dim self) ;;
  u_selection <- columns u 0 (embed_dim self) ;;
  let embeddings := mat_mul u_selection sigma in
  mapM (fun row => mapM (fun '(j, val) => s <- vec_index signs j ;; Ret (fmul val s))
                         (combine (seq 0 (length row)) row))
       (row_list embeddings).

Definition centered_input (self : KernelPca R) (data : list (list R)) : outcome (DMatrix R) :=
  match kernel self with
  | Linear => center_data data
  | _ => center_kernel_matrix (form_kernel_matrix self data)
  end.

(** The scale of column [j]: the singular value for [Linear], its square
    root otherwise. *)
Definition column_scale (k : Kernel R) (sv : list R) (j : nat) : R :=
  match k with
  | Linear => nth j sv 0
  | _ => sqrt (nth j sv 0)
  end.

(** Row [i], column [j]: [u[i][j] * scale_j * sign_j]. *)
Definition embedding_of (k : Kernel R) (um : DMatrix R) (sv : list R) (dim : nat) : list (list R) :=
  map (fun i => map (fun j => get um i j * column_scale k sv j * column_sign (column_entries um j))
                    (seq 0 dim))
      (seq 0 (nrows um)).

(** A decomposition routine with the output shapes of nalgebra's thin SVD of
    an r x c matrix: min(r, c) singular values, [u] of r x min(r, c). *)
Definition svd_shaped (svd : DMatrix R -> SVD R) : Prop :=
  forall x, length (singular_values (svd x)) = Nat.min (nrows x) (ncols x) /\
            exists um, u (svd x) = Some um /\ nrows um = nrows x /\
                       ncols um = Nat.min (nrows x) (ncols x).

(** Such a routine, used to instantiate the statements below. *)
Definition svd_zero (x : DMatrix R) : SVD R :=
  mkSVD (repeat 0 (Nat.min (nrows x) (ncols x)))
        (Some (mkMat (nrows x) (Nat.min (nrows x) (ncols x)) (fun _ _ => 0))).

(** A column negated, and a decomposition with its [c]-th left singular
    vector negated. *)
Definition flip_column (c : nat) (m : DMatrix R) : DMatrix R :=
  mkMat (nrows m) (ncols m) (fun i j => if j =? c then - get m i j else get m i j).

Definition flip_svd (c : nat) (s : SVD R) : SVD R :=
  mkSVD (singular_values s) (option_map (flip_column c) (u s)).

(** The data [[1], [-1]]: centered, it is the 2 x 1 matrix [[1], [-1]], whose
    SVD has the singular value [sqrt 2] and the left singular vector
    [(1/sqrt 2, -1/sqrt 2)] (or its negation). *)
Definition ce_u : DMatrix R := mkMat 2 1 (fun i _ => if i =? 0 then / sqrt 2 else - / sqrt 2).

Definition ce_svd (_ : DMatrix R) : SVD R := mkSVD [sqrt 2] (Some ce_u).

(** The data [[0], [1]] with the squared-exponential kernel ([gamma = 1])
    and [embed_dim = 1], and a decomposition of its centered kernel matrix
    [c/2 * [[1, -1], [-1, 1]]], [c = 1 - exp(-1)]: the eigenvalues (and
    singular values) [c] and [0], the eigenvectors [(-1, 1)/sqrt 2] and
    [(1, 1)/sqrt 2]. *)
Definition ce2_c : R := 1 - exp (-1).
Definition ce2_u : DMatrix R :=
  mkMat 2 2 (fun i j => if j =? 0 then (if i =? 0 then - / sqrt 2 else / sqrt 2) else / sqrt 2).
Definition ce2_svd (_ : DMatrix R) : SVD R := mkSVD [ce2_c; 0] (Some ce2_u).
Definition ce2_eig (_ : DMatrix R) : list R * DMatrix R := ([ce2_c; 0], ce2_u).
Definition ce2_self : KernelPca R := mkKernelPca (SquaredExponential 1) 1.
Definition ce2_data : list (list R) := [[0]; [1]].

(** A vector shifted by [c], entry by entry. *)
Definition shift (c : list R) (a : list R) : list R := map (fun '(x, y) => x + y) (combine a c).

(** The errors [validate] reports, and the computation failures of [apply]. *)
Definition validation_errors : list KPcaError :=
  [invalid_data "Input data has no records";
   invalid_data "Input data has a dimensionality of zero";
   invalid_data "Input data has inconsistent dimensionality across records";
   invalid_config "Embedding dimension must be positive";
   invalid_config "Embeddind dimension must be <= data dimension"].

Definition computation_errors : list KPcaError :=
  [computation_failure "Unable to convert data length to float";
   computation_failure "Unable to convert dimension to float";
   computation_failure "SVD Failure"].


(** A decomposition routine that returns the singular values but no [u]. *)
Definition svd_without_u (x : DMatrix R) : SVD R :=
  mkSVD (repeat 0 (Nat.min (nrows x) (ncols x))) None.

(** Sample inputs: two points of the plane, a squared-exponential
    configuration with [embed_dim = k]. *)
Definition two_points : list (list R) := [[0; 0]; [1; 1]].

Definition se1 (k : nat) : KernelPca R := mkKernelPca (SquaredExponential 1) k.

Definition lin (k : nat) : KernelPca R := mkKernelPca Linear k.

(** A symmetric 2 x 2 matrix, [k[i][j] = i + j]. *)
Definition sample_kernel : DMatrix R := mkMat 2 2 (fun i j => INR (i + j)).

(** A 2 x 2 matrix whose rows and columns sum to zero. *)
Definition centered_sample : DMatrix R := mkMat 2 2 (fun i j => if i =? j then 1 else -1).
Local Close Scope R_scope.

Section Generic.

Context {T : Type} `{Float T}.

Lemma check_rows_existsb (dim : nat) (rows : list (list T)) :
  check_rows dim rows =
  if existsb (fun row => negb (length row =? dim)) rows
  then Raise (invalid_data "Input data has inconsistent dimensionality across records")
  else Ret tt.
Proof.
  induction rows as [|row rest IH]; simpl; [reflexivity|].
  destruct (negb (length row =? dim)); simpl; [reflexivity | exact IH].
Qed.

Lemma validate_expected (self : KernelPca T) (data : list (list T)) :
  match expected_validation self data with
  | Some k => exists e, validate self data = Raise e /\ kind_of e = k
  | None => validate self data = Ret tt
  end.
Proof.
  unfold validate, expected_validation.
  destruct data as [|r0 rest]; simpl; [eexists; split; reflexivity|].
  destruct (length r0 =? 0); [eexists; split; reflexivity|].
  rewrite Nat.eqb_refl; simpl. rewrite check_rows_existsb.
  destruct (existsb _ rest); simpl; [eexists; split; reflexivity|].
  destruct (embed_dim self =? 0); [eexists; split; reflexivity|].
  destruct (length r0 <? embed_dim self); [eexists; split; reflexivity|reflexivity].
Qed.

Lemma apply_validate_error (svd : DMatrix T -> SVD T) (self : KernelPca T)
  (data : list (list T)) (e : KPcaError) :
  validate self data = Raise e -> apply svd self data = Raise e.
Proof. intros Hv. unfold apply. rewrite Hv. reflexivity. Qed.

Lemma combine_common_prefix {A B} (a : list A) (b : list B) :
  combine a b =
  combine (firstn (Nat.min (length a) (length b)) a) (firstn (Nat.min (length a) (length b)) b).
Proof.
  revert b; induction a as [|x a IH]; intros [|y b]; simpl; try reflexivity.
  f_equal. apply IH.
Qed.

End Generic.

(** [C4] [apply] validates before any computation (whatever the decomposition
    routine does), and reports: [InvalidData] for no rows, then for a first row
    of width zero, then for a row of another width; [InvalidConfig] for
    [embed_dim = 0], then for [embed_dim > d]; the first failing check wins.
    The four examples of the specification hold. *)
Theorem apply_validation_order :
  (forall (T : Type) (F : Float T) (svd : DMatrix T -> SVD T)
          (self : KernelPca T) (data : list (list T)),
      match expected_validation self data with
      | Some k => exists e, apply svd self data = Raise e /\ kind_of e = k
      | None => validate self data = Ret tt
      end) /\
  (forall (svd : DMatrix R -> SVD R) (k : Kernel R) (e : nat),
      (exists m, apply svd (mkKernelPca k e) [] = Raise (InvalidData m)) /\
      (exists m, apply svd (mkKernelPca k 0) [[1%R]] = Raise (InvalidConfig m)) /\
      (exists m, apply svd (mkKernelPca k e) [[1%R; 2%R]; [3%R]] = Raise (InvalidData m)) /\
      (exists m, apply svd (mkKernelPca k 3) [[1%R; 2%R]] = Raise (InvalidConfig m))).
Proof.
  split.
  - intros T F svd self data. pose proof (validate_expected self data) as Hv.
    destruct (expected_validation self data) as [k|]; [|exact Hv].
    destruct Hv as [e [He Hk]]. exists e. split; [apply apply_validate_error; exact He | exact Hk].
  - intros svd k e. repeat split; eexists; reflexivity.
Qed.

(** [C10] [Kernel::compute] is a total function (it returns a scalar, with no
    error or panic path) on vectors of any lengths, and its value is its value
    on the common prefixes of length [min |a| |b|]: the [zip] stops at the
    shorter vector. *)
Theorem compute_common_prefix :
  forall (T : Type) (F : Float T) (k : Kernel T) (a b : list T),
    compute k a b =
    compute k (firstn (Nat.min (length a) (length b)) a) (firstn (Nat.min (length a) (length b)) b).
Proof.
  intros T F k a b.
  destruct k; simpl;
    unfold compute_linear, compute_rational_quadratic, compute_squared_exponential, sum_sq_diff;
    rewrite <- combine_common_prefix; reflexivity.
Qed.

(** ** The Kernel Matrix Builder: the loop invariant of [form_kernel_matrix]. *)

Section KernelMatrix.

Context {T : Type} `{Float T}.

Variable self : KernelPca T.
Variable x : list (list T).

Lemma fold_seq_S {A} (f : A -> nat -> A) (s c : nat) (acc : A) :
  fold_left f (seq s (S c)) acc = f (fold_left f (seq s c) acc) (s + c).
Proof. rewrite seq_S, fold_left_app. reflexivity. Qed.

Lemma inner_loop (n i c : nat) (k : DMatrix T) :
  c <= i ->
  nrows k = n -> ncols k = n ->
  (forall a b, get k a b = km_partial self x i 0 a b) ->
  let k' := fold_left
              (fun k j =>
                 let kij := compute (kernel self) (nth i x []) (nth j x []) in
                 set_entry (set_entry k i j kij) j i kij) (seq 0 c) k in
  nrows k' = n /\ ncols k' = n /\ forall a b, get k' a b = km_partial self x i c a b.
Proof.
  intros Hc Hr Hcol Hk. cbv zeta. induction c as [|c IH].
  - simpl; auto.
  - rewrite fold_seq_S. simpl.
    destruct IH as [IHr [IHc IHk]]; [lia|].
    split; [exact IHr|]. split; [exact IHc|].
    intros a b. rewrite IHk. unfold km_partial, km_entry.
    destruct (Nat.eqb_spec a c), (Nat.eqb_spec b i), (Nat.eqb_spec a i), (Nat.eqb_spec b c);
      subst; simpl;
      repeat match goal with
             | |- context [?p <? ?q] => destruct (Nat.ltb_spec p q)
             | |- context [?p =? ?q] => destruct (Nat.eqb_spec p q)
             end; simpl; try lia; try reflexivity;
      f_equal; f_equal; lia.
Qed.

Lemma outer_loop (m : nat) :
  m <= length x ->
  let k' := fold_left
    (fun k i =>
       let k := fold_left
                  (fun k j =>
                     let kij := compute (kernel self) (nth i x []) (nth j x []) in
                     set_entry (set_entry k i j kij) j i kij)
                  (seq 0 i) k in
       set_entry k i i (compute (kernel self) (nth i x []) (nth i x [])))
    (seq 0 m) (zeros (length x) (length x)) in
  nrows k' = length x /\ ncols k' = length x /\ forall a b, get k' a b = km_partial self x m 0 a b.
Proof.
  intros Hm. cbv zeta. induction m as [|m IH].
  - simpl. repeat split. intros a b. unfold km_partial. simpl.
    destruct (a =? 0), (b =? 0); reflexivity.
  - rewrite fold_seq_S. simpl.
    destruct IH as [IHr [IHc IHk]]; [lia|].
    destruct (inner_loop (length x) m m _ (le_n m) IHr IHc IHk) as [Hr [Hc Hk]].
    split; [exact Hr|]. split; [exact Hc|].
    intros a b. rewrite Hk. unfold km_partial, km_entry.
    repeat match goal with
           | |- context [?p <? ?q] => destruct (Nat.ltb_spec p q)
           | |- context [?p =? ?q] => destruct (Nat.eqb_spec p q)
           end; simpl; subst; try lia; try reflexivity;
      try (rewrite Nat.max_id, Nat.min_id; reflexivity).
Qed.

Lemma form_kernel_matrix_spec :
  nrows (form_kernel_matrix self x) = length x /\
  ncols (form_kernel_matrix self x) = length x /\
  forall a b, get (form_kernel_matrix self x) a b =
              if (a <? length x) && (b <? length x) then km_entry self x a b else fzero.
Proof.
  destruct (outer_loop (length x) (le_n _)) as [Hr [Hc Hk]].
  split; [exact Hr|]. split; [exact Hc|].
  intros a b. unfold form_kernel_matrix. rewrite Hk. unfold km_partial.
  destruct ((a <? length x) && (b <? length x)); [reflexivity|].
  destruct (a =? length x), (b =? length x); simpl;
    repeat rewrite Nat.ltb_irrefl; repeat rewrite andb_false_r; try reflexivity;
    destruct (b <? 0), (a <? 0); reflexivity.
Qed.

End KernelMatrix.

(** ** Kernels over the reals. *)

Local Open Scope R_scope.

Lemma fold_combine_swap (g : R -> R * R -> R) (a b : list R) (acc : R) :
  (forall s p q, g s (p, q) = g s (q, p)) ->
  fold_left g (combine a b) acc = fold_left g (combine b a) acc.
Proof.
  intros Hg. revert b acc; induction a as [|p a IH]; intros [|q b] acc; simpl; try reflexivity.
  rewrite Hg. apply IH.
Qed.

Lemma compute_symmetric (k : Kernel R) (a b : list R) : compute k a b = compute k b a.
Proof.
  destruct k; simpl;
    unfold compute_linear, compute_rational_quadratic, compute_squared_exponential, sum_sq_diff;
    rewrite fold_combine_swap with (a := a) (b := b); try reflexivity;
    intros s p q; simpl; f_equal; ring.
Qed.

Lemma row_list_spec (m : DMatrix R) (n : nat) (f : nat -> nat -> R) :
  nrows m = n -> ncols m = n -> (forall i j, (i < n)%nat -> (j < n)%nat -> get m i j = f i j) ->
  row_list m = map (fun i => map (fun j => f i j) (seq 0 n)) (seq 0 n).
Proof.
  intros Hr Hc Hf. unfold row_list. rewrite Hr, Hc.
  apply map_ext_in. intros i Hi. apply map_ext_in. intros j Hj.
  apply in_seq in Hi, Hj. apply Hf; lia.
Qed.

Lemma map_nth_seq {A} (l : list A) (d : A) :
  map (fun i => nth i l d) (seq 0 (length l)) = l.
Proof.
  induction l as [|y l IH]; [reflexivity|].
  simpl. f_equal. rewrite <- seq_shift, map_map. exact IH.
Qed.

(** [C6] Every kernel is symmetric, [compute k a b = compute k b a] (for
    vectors of any lengths, so in particular for equal ones); the matrix of
    the Kernel Matrix Builder is the n x n matrix whose row [i] is
    [compute k row_i row_j] over the rows [j], and it equals its transpose. *)
Theorem kernel_symmetric_and_gram_matrix :
  (forall (k : Kernel R) (a b : list R), compute k a b = compute k b a) /\
  (forall (self : KernelPca R) (x : list (list R)),
      let K := form_kernel_matrix self x in
      nrows K = length x /\ ncols K = length x /\
      row_list K = map (fun a => map (fun b => compute (kernel self) a b) x) x /\
      (forall i j, get K i j = get K j i)).
Proof.
  split; [exact compute_symmetric|].
  intros self x K.
  destruct (form_kernel_matrix_spec self x) as [Hr [Hc Hk]].
  split; [exact Hr|]. split; [exact Hc|]. split.
  - rewrite (row_list_spec K (length x)
               (fun i j => compute (kernel self) (nth i x []) (nth j x [])) Hr Hc).
    + transitivity (map (fun a => map (fun b => compute (kernel self) a b)
                                   (map (fun j => nth j x []) (seq 0 (length x))))
                      (map (fun i => nth i x []) (seq 0 (length x)))).
      * rewrite map_map. apply map_ext. intros i. rewrite map_map. reflexivity.
      * rewrite map_nth_seq. reflexivity.
    + intros i j Hi Hj. unfold K. rewrite Hk.
      apply Nat.ltb_lt in Hi, Hj. rewrite Hi, Hj. simpl. unfold km_entry.
      destruct (Nat.le_ge_cases i j) as [Hij|Hij].
      * rewrite Nat.max_r, Nat.min_l by exact Hij. apply compute_symmetric.
      * rewrite Nat.max_l, Nat.min_r by exact Hij. reflexivity.
  - intros i j. unfold K. rewrite !Hk. rewrite andb_comm. unfold km_entry.
    rewrite Nat.max_comm, Nat.min_comm. reflexivity.
Qed.

Lemma fold_combine_sum (h : R -> R -> R) (a b : list R) (acc : R) :
  length a = length b ->
  fold_left (fun s '(p, q) => s + h p q) (combine a b) acc =
  acc + sum_list (map (fun i => h (nth i a 0) (nth i b 0)) (seq 0 (length a))).
Proof.
  revert b acc; induction a as [|p a IH]; intros [|q b] acc Hl; simpl in *; try lia.
  - ring.
  - rewrite IH by lia. rewrite <- seq_shift, map_map. simpl. ring.
Qed.

(** [C7] On vectors of equal length, [compute] is the dot product for
    [Linear], [(1 + gamma * ssd)^(-alpha)] for [RationalQuadratic] and
    [exp(-gamma * ssd)] for [SquaredExponential], with [ssd] the sum of the
    squared differences; [compute] is a function returning a scalar, so it is
    pure, deterministic and has no error case. *)
Theorem compute_formulas (a b : list R) :
  length a = length b ->
  compute Linear a b = dot_spec a b /\
  (forall gamma alpha,
      compute (RationalQuadratic gamma alpha) a b = Rpower (1 + gamma * ssd_spec a b) (- alpha)) /\
  (forall gamma, compute (SquaredExponential gamma) a b = exp (- (gamma * ssd_spec a b))).
Proof.
  intros Hl.
  assert (Hs : sum_sq_diff a b = ssd_spec a b).
  { unfold sum_sq_diff. simpl. rewrite (fold_combine_sum (fun p q => (p - q) * (p - q))) by exact Hl.
    unfold ssd_spec. rewrite Rplus_0_l. f_equal. apply map_ext. intros i. ring. }
  simpl. unfold compute_linear, compute_rational_quadratic, compute_squared_exponential.
  rewrite Hs. split; [|split].
  - simpl. rewrite (fold_combine_sum Rmult) by exact Hl. unfold dot_spec. ring.
  - intros gamma alpha. reflexivity.
  - intros gamma. simpl. f_equal. ring.
Qed.

Lemma compute_formulas_witness :
  length [1; 2] = length [3; 4] /\
  (compute Linear [1; 2] [3; 4] = dot_spec [1; 2] [3; 4] /\
  (forall gamma alpha,
      compute (RationalQuadratic gamma alpha) [1; 2] [3; 4] =
      Rpower (1 + gamma * ssd_spec [1; 2] [3; 4]) (- alpha)) /\
  (forall gamma, compute (SquaredExponential gamma) [1; 2] [3; 4] =
                 exp (- (gamma * ssd_spec [1; 2] [3; 4])))).
Proof. split; [reflexivity | apply compute_formulas; reflexivity]. Defined.

(** ** The Index Ranking Utility over the reals. *)

Section Ranking.

Variable values : list R.

Let v (i : nat) : R := nth i values 0.

Let cmp (a b : nat) : comparison :=
  if flt (nth a values fzero) (nth b values fzero) then Gt else Lt.

Lemma is_less_cmp (a b : nat) : is_less cmp a b = true <-> v b <= v a.
Proof.
  unfold is_less, cmp, v. simpl.
  destruct (Rlt_dec (nth a values 0) (nth b values 0)); split; intros; try discriminate; lra.
Qed.

Lemma insert_tail_perm (x : nat) (rp : list nat) : Permutation (insert_tail cmp x rp) (x :: rp).
Proof.
  induction rp as [|y ys IH]; simpl; [reflexivity|].
  destruct (is_less cmp x y).
  - rewrite IH. apply perm_swap.
  - reflexivity.
Qed.

Lemma insert_tail_sorted (x : nat) (rp : list nat) :
  StronglySorted (fun a b => v a <= v b) rp ->
  StronglySorted (fun a b => v a <= v b) (insert_tail cmp x rp).
Proof.
  induction rp as [|y ys IH]; intros Hs; simpl.
  - repeat constructor.
  - inversion Hs as [|? ? Hys Hall]; subst.
    destruct (is_less cmp x y) eqn:E.
    + apply is_less_cmp in E. constructor; [apply IH; exact Hys|].
      apply (Permutation_Forall (Permutation_sym (insert_tail_perm x ys))).
      constructor; [exact E | exact Hall].
    + assert (Hxy : v x < v y).
      { destruct (Rlt_dec (v x) (v y)) as [h|h]; [exact h|].
        exfalso. assert (is_less cmp x y = true) by (apply is_less_cmp; lra). congruence. }
      constructor; [exact Hs|]. constructor; [lra|].
      eapply Forall_impl; [|exact Hall]. simpl. intros a Ha. lra.
Qed.

Lemma sorted_snoc {A} (P : A -> A -> Prop) (l : list A) (x : A) :
  StronglySorted P l -> Forall (fun y => P y x) l -> StronglySorted P (l ++ [x]).
Proof.
  induction l as [|y l IH]; intros Hs Hf; simpl.
  - repeat constructor.
  - inversion Hs; subst. inversion Hf; subst. constructor; [apply IH; assumption|].
    apply Forall_app. split; [assumption|]. repeat constructor. assumption.
Qed.

Lemma sorted_rev {A} (P : A -> A -> Prop) (l : list A) :
  StronglySorted P l -> StronglySorted (fun a b => P b a) (rev l).
Proof.
  induction l as [|y l IH]; intros Hs; simpl; [constructor|].
  inversion Hs; subst. apply sorted_snoc; [apply IH; assumption|].
  apply Forall_rev. assumption.
Qed.

Lemma sorted_map (f : nat -> R) (l : list nat) :
  StronglySorted (fun a b => f b <= f a) l -> StronglySorted Rge (map f l).
Proof.
  induction l as [|y l IH]; intros Hs; simpl; [constructor|].
  inversion Hs; subst. constructor; [apply IH; assumption|].
  apply Forall_map. eapply Forall_impl; [|eassumption]. simpl. intros. lra.
Qed.

Lemma insertion_pass (l : list nat) (rp : list nat) :
  StronglySorted (fun a b => v a <= v b) rp ->
  let rp' := fold_left (fun rp x => insert_tail cmp x rp) l rp in
  Permutation rp' (rev l ++ rp) /\ StronglySorted (fun a b => v a <= v b) rp'.
Proof.
  cbv zeta. revert rp; induction l as [|x l IH]; intros rp Hs; simpl.
  - split; [reflexivity | exact Hs].
  - destruct (IH (insert_tail cmp x rp) (insert_tail_sorted x rp Hs)) as [Hp Hs'].
    split; [|exact Hs'].
    rewrite Hp, insert_tail_perm, <- app_assoc. simpl.
    apply Permutation_app_head. reflexivity.
Qed.

Lemma sort_indices_descending_spec :
  Permutation (sort_indices_descending values) (seq 0 (length values)) /\
  StronglySorted Rge (map v (sort_indices_descending values)).
Proof.
  unfold sort_indices_descending, sort_by. fold cmp.
  destruct (insertion_pass (seq 0 (length values)) [] (SSorted_nil _)) as [Hp Hs].
  split.
  - rewrite Hp, app_nil_r, rev_involutive. reflexivity.
  - apply sorted_map. apply sorted_rev. exact Hs.
Qed.

End Ranking.

(** [C9] [sort_indices_descending] returns a permutation of [0..n] along which
    the values are non-increasing, so its first index holds a largest value;
    on [0.5, 0.3, 0.8, 0.7, 0.4] it returns [2, 3, 0, 4, 1].  ([slice::sort_by]
    is modelled by the standard library's insertion sort, see [sort_by].) *)
Theorem sort_indices_descending_correct :
  (forall values : list R,
     let res := sort_indices_descending values in
     Permutation res (seq 0 (length values)) /\
     Sorted Rge (map (fun i => nth i values 0) res) /\
     (forall y, In y values -> y <= nth (hd 0%nat res) values 0)) /\
  sort_indices_descending [0.5; 0.3; 0.8; 0.7; 0.4] = [2; 3; 0; 4; 1]%nat.
Proof.
  split.
  - intros values res.
    destruct (sort_indices_descending_spec values) as [Hp Hs]. fold res in Hp, Hs.
    split; [exact Hp|]. split; [apply StronglySorted_Sorted; exact Hs|].
    intros y Hy. destruct (In_nth values y 0 Hy) as [i [Hi Hyi]]. subst y.
    assert (Hin : In i res).
    { apply (Permutation_in _ (Permutation_sym Hp)). apply in_seq. lia. }
    destruct res as [|h t]; [destruct Hin|]. simpl.
    destruct Hin as [->|Hin]; [lra|].
    inversion Hs as [|? ? _ Hall]; subst.
    rewrite Forall_forall in Hall.
    specialize (Hall (nth i values 0) (in_map _ _ _ Hin)). lra.
  - unfold sort_indices_descending, sort_by. cbn [length seq fold_left].
    repeat first [ progress cbn [insert_tail nth flt fzero R_Float]
                 | progress (unfold is_less; cbv beta iota)
                 | match goal with |- context [Rlt_dec ?a ?b] => destruct (Rlt_dec a b); try lra end ].
    reflexivity.
Qed.

(** ** Double centering. *)

Lemma fold_left_ext_pointwise {A B} (f g : A -> B -> A) (l : list B) (acc : A) :
  (forall a b, f a b = g a b) -> fold_left f l acc = fold_left g l acc.
Proof. intros Hfg. revert acc; induction l as [|b l IH]; intros acc; simpl; [|rewrite Hfg]; auto. Qed.

Lemma mat_mul_ext (a a' b b' : DMatrix R) :
  ncols a = ncols a' ->
  (forall i j, get a i j = get a' i j) -> (forall i j, get b i j = get b' i j) ->
  forall i j, get (mat_mul a b) i j = get (mat_mul a' b') i j.
Proof.
  intros Hc Ha Hb i j. simpl. rewrite Hc. apply fold_left_ext_pointwise.
  intros acc l. rewrite Ha, Hb. reflexivity.
Qed.

(** [C8] [center_kernel_matrix] fails, with [ComputationFailure], exactly when
    the dimension n cannot be converted into the scalar type, and otherwise
    returns a matrix; over the reals (where the conversion always succeeds)
    it returns the n x n matrix [R K R] with [R = I - (1/n) J].  It is a
    function of [K]: [K] is not changed. *)
Theorem center_kernel_matrix_spec :
  (forall (T : Type) (F : Float T) (k : DMatrix T),
     match from_usize (nrows k) with
     | None => exists msg, center_kernel_matrix k = Raise (ComputationFailure msg)
     | Some _ => exists m, center_kernel_matrix k = Ret m
     end) /\
  (forall k : DMatrix R,
     exists m, center_kernel_matrix k = Ret m /\
       nrows m = nrows k /\ ncols m = nrows k /\
       forall i j, get m i j =
         get (mat_mul (mat_mul (centering_matrix (nrows k)) k) (centering_matrix (nrows k))) i j).
Proof.
  split.
  - intros T F k. unfold center_kernel_matrix.
    destruct (from_usize (nrows k)); eexists; reflexivity.
  - intros k. unfold center_kernel_matrix. cbn [from_usize R_Float]. eexists. split; [reflexivity|].
    split; [reflexivity|]. split; [reflexivity|].
    apply mat_mul_ext; [reflexivity| |].
    + apply mat_mul_ext; [reflexivity| |reflexivity].
      intros i j. simpl. unfold Rdiv. ring.
    + intros i j. simpl. unfold Rdiv. ring.
Qed.

(** ** The embedding assembled by [apply], over the reals. *)

Lemma apply_finish (svd : DMatrix R -> SVD R) (self : KernelPca R) (data : list (list R)) :
  apply svd self data = (validate self data ;;; x <- centered_input self data ;; finish self (svd x)).
Proof. reflexivity. Qed.

Lemma mapM_map_ret {A B C} (f : B -> outcome C) (g : A -> B) (h : A -> C) (l : list A) :
  (forall a, In a l -> f (g a) = Ret (h a)) -> mapM f (map g l) = Ret (map h l).
Proof.
  induction l as [|a l IH]; intros Hf; simpl; [reflexivity|].
  rewrite Hf by (left; reflexivity). simpl.
  rewrite IH by (intros b Hb; apply Hf; right; exact Hb). reflexivity.
Qed.

Lemma combine_seq_map {A} (f : nat -> A) (s n : nat) :
  combine (seq s n) (map f (seq s n)) = map (fun j => (j, f j)) (seq s n).
Proof. revert s; induction n as [|n IH]; intros s; simpl; [reflexivity|]. f_equal. apply IH. Qed.

Lemma fold_diag (f g : nat -> R) (j k : nat) (acc : R) :
  fold_left (fun acc l => acc + f l * (if l =? j then g l else 0)) (seq 0 k) acc =
  acc + (if j <? k then f j * g j else 0).
Proof.
  induction k as [|k IH].
  - simpl. destruct (j <? 0); lra.
  - rewrite fold_seq_S, IH. simpl.
    destruct (Nat.ltb_spec j k), (Nat.ltb_spec j (S k)), (Nat.eqb_spec k j); subst; try lia; lra.
Qed.

Lemma assemble (um : DMatrix R) (k : nat) (dv : list R) (scale : nat -> R) :
  length dv = k -> (forall l, (l < k)%nat -> nth l dv 0 = scale l) ->
  let c := mkMat (nrows um) k (fun i j => get um i (0 + j)) in
  let signs := map (fun j => column_sign (column_entries c j)) (seq 0 (ncols c)) in
  mapM (fun row => mapM (fun '(j, val) => s <- vec_index signs j ;; Ret (fmul val s))
                         (combine (seq 0 (length row)) row))
       (row_list (mat_mul c (from_diagonal dv))) =
  Ret (map (fun i => map (fun j => get um i j * scale j * column_sign (column_entries um j))
                         (seq 0 k))
           (seq 0 (nrows um))).
Proof.
  intros Hlen Hdv c signs. unfold row_list. simpl ncols. simpl nrows. rewrite Hlen.
  apply mapM_map_ret. intros i Hi.
  rewrite length_map, length_seq, combine_seq_map.
  apply mapM_map_ret. intros j Hj. apply in_seq in Hj.
  unfold vec_index, signs. rewrite nth_error_map, nth_error_seq.
  assert (Ej : (j <? k) = true) by (apply Nat.ltb_lt; lia). simpl ncols. rewrite Ej. simpl.
  f_equal. f_equal.
  rewrite (fold_diag (fun l => get um i l) (fun l => nth l dv 0)).
  rewrite Ej, Rplus_0_l. f_equal. apply Hdv. lia.
Qed.

Lemma finish_ret (self : KernelPca R) (sv : list R) (um : DMatrix R) :
  (embed_dim self <= length sv)%nat -> (embed_dim self <= ncols um)%nat ->
  finish self (mkSVD sv (Some um)) = Ret (embedding_of (kernel self) um sv (embed_dim self)).
Proof.
  intros Hsv Hu. unfold finish, vec_rows, determine_signs, columns. simpl singular_values.
  set (k := embed_dim self) in *.
  assert (E1 : (0 + k <=? length sv) = true) by (apply Nat.leb_le; exact Hsv).
  assert (E2 : (0 + k <=? ncols um) = true) by (apply Nat.leb_le; exact Hu).
  rewrite E1. cbn [bind u]. rewrite E2. cbn [bind].
  assert (Hlen : length (firstn k sv) = k) by (rewrite length_firstn; lia).
  unfold embedding_of, column_scale. rewrite skipn_O.
  destruct (kernel self).
  - apply assemble; [exact Hlen|].
    intros l Hl. rewrite nth_firstn. apply Nat.ltb_lt in Hl. rewrite Hl. reflexivity.
  - apply assemble; [rewrite length_map; exact Hlen|].
    intros l Hl. simpl fsqrt.
    rewrite (nth_indep (map sqrt (firstn k sv)) 0 (sqrt 0)) by (rewrite length_map; lia).
    rewrite map_nth, nth_firstn. apply Nat.ltb_lt in Hl. rewrite Hl. reflexivity.
  - apply assemble; [rewrite length_map; exact Hlen|].
    intros l Hl. simpl fsqrt.
    rewrite (nth_indep (map sqrt (firstn k sv)) 0 (sqrt 0)) by (rewrite length_map; lia).
    rewrite map_nth, nth_firstn. apply Nat.ltb_lt in Hl. rewrite Hl. reflexivity.
Qed.

Lemma validate_ok_inv (self : KernelPca R) (data : list (list R)) :
  validate self data = Ret tt ->
  data <> [] /\
  Forall (fun row => length row = length (nth 0 data [])) data /\
  (1 <= embed_dim self <= length (nth 0 data []))%nat.
Proof.
  unfold validate. rewrite check_rows_existsb.
  destruct (Nat.eqb_spec (length data) 0) as [|Hn]; [discriminate|].
  destruct (Nat.eqb_spec (length (nth 0 data [])) 0); [discriminate|].
  destruct (existsb _ data) eqn:Ex; [discriminate|]. simpl.
  destruct (Nat.eqb_spec (embed_dim self) 0); [discriminate|].
  destruct (Nat.ltb_spec (length (nth 0 data [])) (embed_dim self)); [discriminate|].
  intros _. split; [intros ->; apply Hn; reflexivity|]. split; [|lia].
  apply Forall_forall. intros row Hrow.
  destruct (Nat.eqb_spec (length row) (length (nth 0 data []))) as [|Hne]; [assumption|].
  exfalso. assert (existsb (fun row => negb (length row =? length (nth 0 data []))) data = true).
  { apply existsb_exists. exists row. split; [exact Hrow|]. apply Nat.eqb_neq in Hne. rewrite Hne. reflexivity. }
  congruence.
Qed.

Lemma validate_rect (self : KernelPca R) (data : list (list R)) (d : nat) :
  data <> [] -> Forall (fun row => length row = d) data ->
  (1 <= embed_dim self <= d)%nat -> validate self data = Ret tt.
Proof.
  intros Hne Hf Hk. destruct data as [|r0 rest]; [contradiction|].
  inversion Hf as [|? ? Hr0 Hrest]; subst.
  unfold validate. simpl length. cbn [nth]. rewrite check_rows_existsb.
  destruct (Nat.eqb_spec (length r0) 0); [lia|].
  simpl. rewrite Nat.eqb_refl. simpl.
  replace (existsb _ rest) with false.
  2:{ symmetry. apply not_true_iff_false. intros Hex. apply existsb_exists in Hex.
      destruct Hex as [row [Hrow Hb]]. rewrite Forall_forall in Hrest.
      rewrite (Hrest row Hrow), Nat.eqb_refl in Hb. discriminate. }
  destruct (Nat.eqb_spec (embed_dim self) 0); [lia|].
  destruct (Nat.ltb_spec (length r0) (embed_dim self)); [lia|reflexivity].
Qed.

Lemma add_at_ret (means : list R) (j : nat) (val : R) :
  (j < length means)%nat ->
  exists means', add_at means j val = Ret means' /\ length means' = length means.
Proof.
  intros Hj. unfold add_at, vec_index.
  destruct (nth_error means j) eqn:E.
  - eexists. split; [reflexivity|].
    rewrite length_app, length_firstn. cbn [length]. rewrite length_skipn. lia.
  - apply nth_error_None in E. lia.
Qed.

Lemma accumulate_row_ret (row means : list R) (j : nat) :
  (j + length row <= length means)%nat ->
  exists means', accumulate_row means j row = Ret means' /\ length means' = length means.
Proof.
  revert means j; induction row as [|val row IH]; intros means j Hl; simpl.
  - eexists; split; reflexivity.
  - simpl in Hl. destruct (add_at_ret means j val) as [m1 [E1 L1]]; [lia|].
    rewrite E1. simpl. destruct (IH m1 (S j)) as [m2 [E2 L2]]; [lia|].
    exists m2. split; [exact E2 | lia].
Qed.

Lemma accumulate_ret (x : list (list R)) (means : list R) :
  Forall (fun row => (length row <= length means)%nat) x ->
  exists means', accumulate means x = Ret means' /\ length means' = length means.
Proof.
  revert means; induction x as [|row x IH]; intros means Hf; simpl.
  - eexists; split; reflexivity.
  - inversion Hf as [|? ? Hrow Hrest]; subst.
    destruct (accumulate_row_ret row means 0) as [m1 [E1 L1]]; [lia|].
    rewrite E1. simpl. destruct (IH m1) as [m2 [E2 L2]].
    + eapply Forall_impl; [|exact Hrest]. simpl. intros r Hr. lia.
    + exists m2. split; [exact E2 | lia].
Qed.

(** The matrix handed to the decomposition: n x d on the linear path, n x n
    on the kernel path. *)
Lemma centered_input_shape (self : KernelPca R) (data : list (list R)) :
  validate self data = Ret tt ->
  exists x, centered_input self data = Ret x /\ nrows x = length data /\
    ncols x = match kernel self with Linear => length (nth 0 data []) | _ => length data end.
Proof.
  intros Hv. destruct (validate_ok_inv self data Hv) as [Hne [Hf Hk]].
  unfold centered_input. destruct (kernel self) eqn:Ek.
  - unfold center_data. cbn [from_usize R_Float].
    destruct (accumulate_ret data (repeat fzero (length (nth 0 data [])))) as [m [Em Lm]].
    { eapply Forall_impl; [|exact Hf]. simpl. intros r Hr. rewrite repeat_length. lia. }
    rewrite Em. simpl. eexists. split; [reflexivity|]. simpl. rewrite length_map. split; reflexivity.
  - unfold center_kernel_matrix. cbn [from_usize R_Float].
    destruct (form_kernel_matrix_spec self data) as [Hr _]. rewrite Hr.
    eexists. split; [reflexivity|]. split; reflexivity.
  - unfold center_kernel_matrix. cbn [from_usize R_Float].
    destruct (form_kernel_matrix_spec self data) as [Hr _]. rewrite Hr.
    eexists. split; [reflexivity|]. split; reflexivity.
Qed.

Lemma svd_zero_shaped : svd_shaped svd_zero.
Proof.
  intros x. simpl. rewrite repeat_length. split; [reflexivity|].
  eexists. split; [reflexivity|]. split; reflexivity.
Qed.

Lemma apply_panics_beyond_rank (svd : DMatrix R -> SVD R) (self : KernelPca R)
  (data : list (list R)) :
  svd_shaped svd -> validate self data = Ret tt ->
  (Nat.min (length data) (length (nth 0 data [])) < embed_dim self)%nat ->
  apply svd self data = Panic.
Proof.
  intros Hs Hv Hk. rewrite apply_finish, Hv. cbn [bind].
  destruct (centered_input_shape self data Hv) as [x [Ex [Hr Hc]]].
  rewrite Ex. cbn [bind]. unfold finish, vec_rows.
  destruct (Hs x) as [Hl _]. rewrite Hl, Hr, Hc.
  replace (0 + embed_dim self <=? _) with false; [reflexivity|].
  symmetry. apply Nat.leb_gt. destruct (validate_ok_inv self data Hv) as [_ [_ Hd]].
  destruct (kernel self); lia.
Qed.

(** On a valid input with [embed_dim <= min(n, d)], [apply] returns n rows of
    [embed_dim] entries. *)
Lemma apply_shape_within_rank (svd : DMatrix R -> SVD R) (self : KernelPca R)
  (data : list (list R)) :
  svd_shaped svd -> validate self data = Ret tt ->
  (embed_dim self <= Nat.min (length data) (length (nth 0 data [])))%nat ->
  exists e, apply svd self data = Ret e /\ length e = length data /\
            Forall (fun row => length row = embed_dim self) e.
Proof.
  intros Hs Hv Hk. rewrite apply_finish, Hv. cbn [bind].
  destruct (centered_input_shape self data Hv) as [x [Ex [Hr Hc]]].
  rewrite Ex. cbn [bind].
  destruct (Hs x) as [Hl [um [Eu [Hur Huc]]]].
  destruct (svd x) as [sv u0] eqn:Es. simpl in Hl, Eu. subst u0.
  destruct (validate_ok_inv self data Hv) as [_ [_ Hd]].
  rewrite finish_ret.
  - eexists. split; [reflexivity|]. unfold embedding_of.
    rewrite length_map, length_seq. split; [lia|].
    apply Forall_map, Forall_forall. intros i _. rewrite length_map, length_seq. reflexivity.
  - rewrite Hl, Hr, Hc. destruct (kernel self); lia.
  - rewrite Huc, Hr, Hc. destruct (kernel self); lia.
Qed.

(** [C3] When n < d, a non-linear kernel and n < [embed_dim] <= d pass
    validation, and [apply] then panics: the n x n centered kernel matrix has
    only n singular values and [singular_values.rows(0, embed_dim)] leaves
    the vector. *)
Theorem kernel_path_embed_dim_beyond_samples (svd : DMatrix R -> SVD R)
  (self : KernelPca R) (data : list (list R)) (d : nat) :
  svd_shaped svd ->
  data <> [] -> Forall (fun row => length row = d) data ->
  (length data < d)%nat -> kernel self <> Linear ->
  (length data < embed_dim self <= d)%nat ->
  validate self data = Ret tt /\ apply svd self data = Panic.
Proof.
  intros Hs Hne Hf Hnd Hlin Hk.
  assert (Hn : (1 <= length data)%nat) by (destruct data; [contradiction | simpl; lia]).
  assert (Hv : validate self data = Ret tt) by (apply (validate_rect self data d); auto; lia).
  split; [exact Hv|]. apply apply_panics_beyond_rank; [exact Hs | exact Hv|].
  destruct data as [|r0 rest]; [contradiction|]. inversion Hf; subst. simpl nth. lia.
Qed.

Lemma kernel_path_embed_dim_beyond_samples_witness :
  svd_shaped svd_zero /\ [[0; 0]] <> [] /\ Forall (fun row => length row = 2%nat) [[0; 0]] /\
  (length [[0; 0]] < 2)%nat /\ kernel (mkKernelPca (SquaredExponential 1) 2) <> Linear /\
  (length [[0; 0]] < embed_dim (mkKernelPca (SquaredExponential 1) 2) <= 2)%nat /\
  (validate (mkKernelPca (SquaredExponential 1) 2) [[0; 0]] = Ret tt /\
   apply svd_zero (mkKernelPca (SquaredExponential 1) 2) [[0; 0]] = Panic).
Proof.
  split; [exact svd_zero_shaped|]. split; [discriminate|].
  split; [repeat constructor|]. split; [simpl; lia|]. split; [discriminate|].
  split; [simpl; lia|].
  apply (kernel_path_embed_dim_beyond_samples svd_zero _ _ 2 svd_zero_shaped);
    [discriminate | repeat constructor | simpl; lia | discriminate | simpl; lia].
Defined.

(** [C1] The dataset [[0, 0]] (n = 1, d = 2) with [embed_dim = 2] passes
    validation, yet [apply] panics instead of returning an embedding, on the
    kernel path and on the linear path alike. *)
Theorem valid_input_without_embedding (svd : DMatrix R -> SVD R) :
  svd_shaped svd ->
  validate (mkKernelPca (SquaredExponential 1) 2) [[0; 0]] = Ret tt /\
  apply svd (mkKernelPca (SquaredExponential 1) 2) [[0; 0]] = Panic /\
  validate (mkKernelPca Linear 2) [[0; 0]] = Ret tt /\
  apply svd (mkKernelPca Linear 2) [[0; 0]] = Panic.
Proof.
  intros Hs. repeat split; try reflexivity;
    apply apply_panics_beyond_rank; try exact Hs; try reflexivity; simpl; lia.
Qed.

Lemma valid_input_without_embedding_witness :
  svd_shaped svd_zero /\
  (validate (mkKernelPca (SquaredExponential 1) 2) [[0; 0]] = Ret tt /\
   apply svd_zero (mkKernelPca (SquaredExponential 1) 2) [[0; 0]] = Panic /\
   validate (mkKernelPca Linear 2) [[0; 0]] = Ret tt /\
   apply svd_zero (mkKernelPca Linear 2) [[0; 0]] = Panic).
Proof. split; [exact svd_zero_shaped | apply valid_input_without_embedding; exact svd_zero_shaped]. Defined.

(** [C2] (as the code does it) On a valid input with a non-linear kernel, the
    kernel matrix is built and double-centered, and the centered matrix goes
    to the SVD, not to an eigendecomposition, and no ranking step follows:
    column j of the embedding takes the j-th singular value and the j-th
    left singular vector in the order the SVD returns them, and entry (i, j)
    is [u_j[i] * sqrt(sigma_j) * sign_j], where [sign_j] is the sign
    [determine_signs] computes for column j. *)
Theorem kernel_path_embedding (svd : DMatrix R -> SVD R) (self : KernelPca R)
  (data : list (list R)) (x : DMatrix R) (sv : list R) (um : DMatrix R) :
  kernel self <> Linear -> validate self data = Ret tt ->
  center_kernel_matrix (form_kernel_matrix self data) = Ret x ->
  svd x = mkSVD sv (Some um) ->
  (embed_dim self <= length sv)%nat -> (embed_dim self <= ncols um)%nat ->
  apply svd self data =
  Ret (map (fun i => map (fun j => get um i j * sqrt (nth j sv 0) * column_sign (column_entries um j))
                         (seq 0 (embed_dim self)))
           (seq 0 (nrows um))).
Proof.
  intros Hlin Hv Hx Hsvd Hk1 Hk2. rewrite apply_finish, Hv. cbn [bind].
  replace (centered_input self data) with (Ret x : outcome (DMatrix R))
    by (unfold centered_input; destruct (kernel self); [contradiction | exact (eq_sym Hx) | exact (eq_sym Hx)]).
  cbn [bind]. rewrite Hsvd, finish_ret by assumption.
  unfold embedding_of, column_scale. destruct (kernel self); [contradiction | reflexivity | reflexivity].
Qed.

Lemma kernel_path_embedding_witness :
  exists x,
    kernel (mkKernelPca (SquaredExponential 1) 1) <> Linear /\
    validate (mkKernelPca (SquaredExponential 1) 1) [[0]; [1]] = Ret tt /\
    center_kernel_matrix (form_kernel_matrix (mkKernelPca (SquaredExponential 1) 1) [[0]; [1]]) = Ret x /\
    svd_zero x = mkSVD [0; 0] (Some (mkMat 2 2 (fun _ _ => 0))) /\
    (embed_dim (mkKernelPca (SquaredExponential 1) 1) <= length [0; 0])%nat /\
    (embed_dim (mkKernelPca (SquaredExponential 1) 1) <= ncols (mkMat 2 2 (fun _ _ => 0)))%nat /\
    apply svd_zero (mkKernelPca (SquaredExponential 1) 1) [[0]; [1]] =
    Ret (map (fun i => map (fun j => get (mkMat 2 2 (fun _ _ => 0)) i j * sqrt (nth j [0; 0] 0) *
                                     column_sign (column_entries (mkMat 2 2 (fun _ _ => 0)) j))
                           (seq 0 (embed_dim (mkKernelPca (SquaredExponential 1) 1))))
             (seq 0 (nrows (mkMat 2 2 (fun _ _ => 0))))).
Proof.
  eexists.
  split; [discriminate|]. split; [reflexivity|]. split; [reflexivity|]. split; [reflexivity|].
  split; [simpl; lia|]. split; [simpl; lia|].
  eapply (kernel_path_embedding svd_zero);
    [discriminate | reflexivity | reflexivity | reflexivity | simpl; lia | simpl; lia].
Defined.

(** ** Sign normalization. *)

Lemma sign_fold (l : list R) (m : R) (f1 f2 : bool) :
  0 <= m -> (m = 0 -> f1 = false /\ f2 = false) -> (0 < m -> f2 = negb f1) ->
  let F1 := fold_left sign_step l (m, f1) in
  let F2 := fold_left sign_step (map Ropp l) (m, f2) in
  fst F1 = fst F2 /\ m <= fst F1 /\
  (fst F1 = 0 -> snd F1 = false /\ snd F2 = false) /\
  (0 < fst F1 -> snd F2 = negb (snd F1)) /\
  Forall (fun v => Rabs v <= fst F1) l.
Proof.
  cbv zeta. revert m f1 f2; induction l as [|v l IH]; intros m f1 f2 Hm H0 Hpos; simpl.
  - split; [reflexivity|]. split; [lra|]. split; [exact H0|]. split; [exact Hpos | constructor].
  - rewrite Rabs_Ropp.
    destruct (Rlt_dec m (Rabs v)) as [Hlt|Hge].
    + assert (Hv : v <> 0) by (intros ->; rewrite Rabs_R0 in Hlt; lra).
      assert (Hf : (if Rlt_dec (- v) 0 then true else false) =
                   negb (if Rlt_dec v 0 then true else false)).
      { destruct (Rlt_dec v 0), (Rlt_dec (- v) 0); simpl; try reflexivity; lra. }
      destruct (IH (Rabs v) (if Rlt_dec v 0 then true else false)
                   (if Rlt_dec (- v) 0 then true else false)) as [E [Hle [Hz [Hp Hall]]]].
      * apply Rabs_pos.
      * intros Hz. exfalso. lra.
      * intros _. exact Hf.
      * split; [exact E|]. split; [lra|]. split; [exact Hz|]. split; [exact Hp|].
        constructor; [lra | exact Hall].
    + destruct (IH m f1 f2 Hm H0 Hpos) as [E [Hle [Hz [Hp Hall]]]].
      split; [exact E|]. split; [exact Hle|]. split; [exact Hz|]. split; [exact Hp|].
      constructor; [lra | exact Hall].
Qed.

Lemma column_sign_opp (col : list R) :
  column_sign (map Ropp col) = - column_sign col \/ Forall (fun v => v = 0) col.
Proof.
  unfold column_sign. cbn [fzero fone fneg R_Float].
  destruct (sign_fold col 0 false false) as [E [Hle [Hz [Hp Hall]]]];
    [lra | auto | intros; lra |].
  destruct (fold_left sign_step col (0, false)) as [m1 g1].
  destruct (fold_left sign_step (map Ropp col) (0, false)) as [m2 g2].
  simpl in *. destruct (Req_dec m1 0) as [Hm|Hm].
  - right. eapply Forall_impl; [|exact Hall]. simpl. intros v Hv.
    rewrite Hm in Hv. destruct (Req_dec v 0) as [|Hv0]; [assumption|].
    pose proof (Rabs_pos_lt v Hv0). lra.
  - left. rewrite Hp by lra. destruct g1; simpl; ring.
Qed.

Lemma vec_rows_length (v sel : list R) (k : nat) :
  vec_rows v 0 k = Ret sel -> length sel = k.
Proof.
  unfold vec_rows. destruct (Nat.leb_spec (0 + k) (length v)); [|discriminate].
  intros E. injection E as <-. rewrite length_firstn. simpl. lia.
Qed.

Lemma sign_scaled_flip (um : DMatrix R) (c i j : nat) (a : R) :
  (i < nrows um)%nat ->
  get (flip_column c um) i j * a * column_sign (column_entries (flip_column c um) j) =
  get um i j * a * column_sign (column_entries um j).
Proof.
  intros Hi. unfold column_entries. simpl get. simpl nrows.
  destruct (Nat.eqb_spec j c) as [->|Hjc].
  - replace (map (fun i0 => - get um i0 c) (seq 0 (nrows um)))
      with (map Ropp (map (fun i0 => get um i0 c) (seq 0 (nrows um))))
      by (rewrite map_map; reflexivity).
    destruct (column_sign_opp (map (fun i0 => get um i0 c) (seq 0 (nrows um)))) as [Hs|Hz].
    + rewrite Hs. ring.
    + rewrite Forall_map, Forall_forall in Hz.
      rewrite (Hz i) by (apply in_seq; lia). ring.
  - reflexivity.
Qed.

Lemma finish_flip (self : KernelPca R) (c : nat) (s : SVD R) :
  finish self (flip_svd c s) = finish self s.
Proof.
  unfold finish, flip_svd. cbn [singular_values u].
  destruct (vec_rows (singular_values s) 0 (embed_dim self)) as [sel| |] eqn:Ev;
    cbn [bind]; try reflexivity.
  apply vec_rows_length in Ev.
  destruct (u s) as [um|]; cbn [option_map bind]; [|reflexivity].
  unfold determine_signs, columns. simpl ncols.
  destruct (0 + embed_dim self <=? ncols um); cbn [bind]; [|reflexivity].
  set (k := embed_dim self) in *.
  set (dv := match kernel self with
             | Linear => sel
             | _ => map fsqrt sel
             end).
  assert (Hlen : length dv = k) by (unfold dv; destruct (kernel self); rewrite ?length_map; exact Ev).
  replace (match kernel self with
           | Linear => from_diagonal sel
           | _ => from_diagonal (map fsqrt sel)
           end) with (from_diagonal dv) by (unfold dv; destruct (kernel self); reflexivity).
  rewrite (assemble (flip_column c um) k dv (fun l => nth l dv 0) Hlen (fun _ _ => eq_refl)).
  rewrite (assemble um k dv (fun l => nth l dv 0) Hlen (fun _ _ => eq_refl)).
  f_equal. simpl nrows. apply map_ext_in. intros i Hi. apply map_ext_in. intros j _.
  apply in_seq in Hi. apply sign_scaled_flip. lia.
Qed.

(** [C5] (as the code does it) [apply] normalizes the sign of every output
    column ([determine_signs]): whatever the input, if the decomposition
    routine returns the [c]-th left singular vector negated, the embedding
    is the same, not negated. *)
Theorem apply_sign_normalized (svd : DMatrix R -> SVD R) (c : nat)
  (self : KernelPca R) (data : list (list R)) :
  apply (fun x => flip_svd c (svd x)) self data = apply svd self data.
Proof.
  rewrite !apply_finish. destruct (validate self data) as [[]| |]; cbn [bind]; try reflexivity.
  destruct (centered_input self data) as [x| |]; cbn [bind]; try reflexivity.
  apply finish_flip.
Qed.

Lemma inv_sqrt2_pos : 0 < / sqrt 2.
Proof. apply Rinv_0_lt_compat, Rlt_sqrt2_0. Qed.

Lemma inv_sqrt2_mul : / sqrt 2 * sqrt 2 = 1.
Proof. apply Rinv_l. pose proof Rlt_sqrt2_0. lra. Qed.

Lemma column_sign_pair (a : R) :
  0 < a -> column_sign [a; - a] = 1 /\ column_sign [- a; a] = -1.
Proof.
  intros Ha. unfold column_sign, sign_step. cbn [fold_left flt fabs fzero fone fneg R_Float].
  rewrite Rabs_Ropp, (Rabs_right a) by lra.
  repeat match goal with |- context [Rlt_dec ?p ?q] => destruct (Rlt_dec p q); try lra end.
Qed.

Lemma ce_centered :
  exists x, centered_input (mkKernelPca Linear 1) [[1]; [-1]] = Ret x /\
    nrows x = 2%nat /\ ncols x = 1%nat /\ get x 0 0 = 1 /\ get x 1 0 = -1.
Proof.
  eexists. split; [reflexivity|]. cbn. repeat split; field.
Qed.

(** [C5] counterexample: on [[1], [-1]] with the linear kernel and
    [embed_dim = 1], the SVD [ce_svd] of the centered data and the same SVD
    with its left singular vector negated give the same embedding
    [[1], [-1]], which is not the negation of itself. *)
Lemma sign_flip_keeps_embedding :
  (exists x, centered_input (mkKernelPca Linear 1) [[1]; [-1]] = Ret x /\
     get x 0 0 = get ce_u 0 0 * sqrt 2 /\ get x 1 0 = get ce_u 1 0 * sqrt 2) /\
  get ce_u 0 0 ^ 2 + get ce_u 1 0 ^ 2 = 1 /\
  apply ce_svd (mkKernelPca Linear 1) [[1]; [-1]] = Ret [[1]; [-1]] /\
  apply (fun x => flip_svd 0 (ce_svd x)) (mkKernelPca Linear 1) [[1]; [-1]] = Ret [[1]; [-1]] /\
  [[1]; [-1]] <> map (map Ropp) [[1]; [-1]].
Proof.
  destruct ce_centered as [x [Ex [_ [_ [H0 H1]]]]].
  pose proof inv_sqrt2_mul as Hm. pose proof inv_sqrt2_pos as Hp.
  destruct (column_sign_pair (/ sqrt 2) Hp) as [Hs1 Hs2].
  split; [|split; [|split; [|split]]].
  - exists x. split; [exact Ex|]. cbn [get ce_u Nat.eqb]. rewrite H0, H1. lra.
  - cbn [get ce_u Nat.eqb].
    assert (Hq : / sqrt 2 * / sqrt 2 = / 2).
    { rewrite <- Rinv_mult, sqrt_sqrt by lra. reflexivity. }
    replace ((/ sqrt 2) ^ 2 + (- / sqrt 2) ^ 2) with (2 * (/ sqrt 2 * / sqrt 2)) by ring.
    rewrite Hq. field.
  - rewrite apply_finish. replace (validate _ _) with (Ret tt : outcome unit) by reflexivity.
    cbn [bind]. rewrite Ex. cbn [bind]. unfold ce_svd.
    rewrite finish_ret by (simpl; lia).
    cbn [embedding_of column_scale column_entries seq map nth get ce_u nrows Nat.eqb kernel embed_dim].
    rewrite Hs1. f_equal. f_equal; f_equal; [f_equal|f_equal]; lra.
  - rewrite apply_finish. replace (validate _ _) with (Ret tt : outcome unit) by reflexivity.
    cbn [bind]. rewrite Ex. cbn [bind]. unfold ce_svd, flip_svd. cbn [singular_values u option_map].
    rewrite finish_ret by (simpl; lia).
    cbn [embedding_of column_scale column_entries seq map nth get ce_u flip_column nrows Nat.eqb kernel embed_dim].
    rewrite Ropp_involutive, Hs2. f_equal. f_equal; f_equal; [f_equal|f_equal]; lra.
  - simpl. intros E. injection E. lra.
Qed.

Lemma ce2_centered : exists x,
  center_kernel_matrix (form_kernel_matrix ce2_self ce2_data) = Ret x /\
  nrows x = 2%nat /\ ncols x = 2%nat /\
  get x 0 0 = ce2_c / 2 /\ get x 0 1 = - (ce2_c / 2) /\
  get x 1 0 = - (ce2_c / 2) /\ get x 1 1 = ce2_c / 2.
Proof.
  eexists. split; [reflexivity|]. cbn. unfold ce2_c.
  replace (- (1) * (0 + (0 - 0) * (0 - 0))) with 0 by ring.
  replace (- (1) * (0 + (1 - 1) * (1 - 1))) with 0 by ring.
  replace (- (1) * (0 + (1 - 0) * (1 - 0))) with (-1) by ring.
  rewrite exp_0. repeat split; field.
Qed.

Lemma ce2_c_pos : 0 < ce2_c.
Proof.
  unfold ce2_c. pose proof (exp_increasing (-1) 0 ltac:(lra)) as He.
  rewrite exp_0 in He. lra.
Qed.

Lemma ce2_sort : sort_indices_descending [ce2_c; 0] = [0%nat; 1%nat].
Proof.
  pose proof ce2_c_pos.
  unfold sort_indices_descending, sort_by. cbn. unfold is_less. cbv beta iota.
  destruct (Rlt_dec 0 ce2_c); [reflexivity | lra].
Qed.

Lemma ce2_pos_entry : 0 < / sqrt 2 * sqrt ce2_c.
Proof.
  apply Rmult_lt_0_compat; [exact inv_sqrt2_pos | apply sqrt_lt_R0, ce2_c_pos].
Qed.

(** [C2] counterexample: on [[0], [1]] with the squared-exponential kernel
    ([gamma = 1]) and [embed_dim = 1], the double-centered kernel matrix [x]
    has eigenvalues [1 - exp(-1) > 0] and [0] with orthonormal eigenvectors
    [(-1, 1)/sqrt 2] and [(1, 1)/sqrt 2], which also make an SVD of [x].
    With this decomposition, [apply] returns the embedding negated with
    respect to the one the described path builds, because [apply] also
    multiplies each column by the sign that [determine_signs] chooses. *)
Lemma kernel_path_differs_from_description :
  0 < ce2_c /\
  (exists x, center_kernel_matrix (form_kernel_matrix ce2_self ce2_data) = Ret x /\
     forall i j, (i < 2)%nat -> (j < 2)%nat ->
       get (mat_mul x ce2_u) i j = get (mat_mul ce2_u (from_diagonal [ce2_c; 0])) i j) /\
  (forall j k, (j < 2)%nat -> (k < 2)%nat ->
     get ce2_u 0 j * get ce2_u 0 k + get ce2_u 1 j * get ce2_u 1 k = (if j =? k then 1 else 0)) /\
  validate ce2_self ce2_data = Ret tt /\
  apply ce2_svd ce2_self ce2_data =
    Ret [[/ sqrt 2 * sqrt ce2_c]; [- (/ sqrt 2 * sqrt ce2_c)]] /\
  kernel_path_as_described ce2_eig ce2_self ce2_data =
    Ret [[- (/ sqrt 2 * sqrt ce2_c)]; [/ sqrt 2 * sqrt ce2_c]] /\
  apply ce2_svd ce2_self ce2_data <> kernel_path_as_described ce2_eig ce2_self ce2_data.
Proof.
  destruct ce2_centered as [x [Ex [Hr [Hc [H00 [H01 [H10 H11]]]]]]].
  pose proof ce2_c_pos as Hcp. pose proof ce2_pos_entry as Hpe.
  destruct (column_sign_pair (/ sqrt 2) inv_sqrt2_pos) as [_ Hs2].
  assert (Hq : / sqrt 2 * / sqrt 2 = / 2).
  { rewrite <- Rinv_mult, sqrt_sqrt by lra. reflexivity. }
  assert (Hv : validate ce2_self ce2_data = Ret tt) by reflexivity.
  assert (HA : apply ce2_svd ce2_self ce2_data =
                 Ret [[/ sqrt 2 * sqrt ce2_c]; [- (/ sqrt 2 * sqrt ce2_c)]]).
  { rewrite apply_finish, Hv. cbn [bind].
    change (centered_input ce2_self ce2_data)
      with (center_kernel_matrix (form_kernel_matrix ce2_self ce2_data)).
    rewrite Ex. cbn [bind]. unfold ce2_svd.
    rewrite finish_ret by (simpl; lia).
    cbn [embedding_of column_scale column_entries seq map nth get ce2_u nrows Nat.eqb
         kernel embed_dim ce2_self].
    rewrite Hs2.
    replace (- / sqrt 2 * sqrt ce2_c * -1) with (/ sqrt 2 * sqrt ce2_c) by ring.
    replace (/ sqrt 2 * sqrt ce2_c * -1) with (- (/ sqrt 2 * sqrt ce2_c)) by ring.
    reflexivity. }
  assert (HD : kernel_path_as_described ce2_eig ce2_self ce2_data =
                 Ret [[- (/ sqrt 2 * sqrt ce2_c)]; [/ sqrt 2 * sqrt ce2_c]]).
  { unfold kernel_path_as_described. rewrite Hv. cbn [bind]. rewrite Ex. cbn [bind].
    unfold ce2_eig. rewrite ce2_sort.
    cbn [firstn embed_dim ce2_self map seq length ce2_data get ce2_u nth Nat.eqb
         fmul fsqrt fzero R_Float].
    rewrite Ropp_mult_distr_l. reflexivity. }
  split; [exact Hcp|]. split; [|split; [|split; [exact Hv|split; [exact HA|split; [exact HD|]]]]].
  - exists x. split; [exact Ex|]. intros i j Hi Hj.
    unfold mat_mul. cbn [get nrows ncols ce2_u from_diagonal length]. rewrite Hc.
    destruct i as [|[|i]]; [| |lia]; destruct j as [|[|j]]; try lia;
      cbn [seq fold_left Nat.eqb nth fadd fmul fzero R_Float];
      rewrite ?H00, ?H01, ?H10, ?H11; field; apply Rgt_not_eq, sqrt_lt_R0; lra.
  - intros j k Hj Hk.
    destruct j as [|[|j]]; [| |lia]; destruct k as [|[|k]]; try lia;
      cbn [get ce2_u Nat.eqb]; nra.
  - rewrite HA, HD. intros E. injection E. intros. lra.
Qed.

(** ** Further properties of the crate. *)

(** *** Sums over index ranges. *)

Lemma fold_sum (f : nat -> R) (s : list nat) (a : R) :
  fold_left (fun acc l => acc + f l) s a = a + sum_list (map f s).
Proof. revert a; induction s as [|x s IH]; intros a; simpl; [ring|]. rewrite IH. ring. Qed.

Lemma sum_add {A} (f g : A -> R) (l : list A) :
  sum_list (map (fun x => f x + g x) l) = sum_list (map f l) + sum_list (map g l).
Proof. induction l as [|x l IH]; simpl; [ring|]. rewrite IH. ring. Qed.

Lemma sum_scale_l {A} (c : R) (f : A -> R) (l : list A) :
  sum_list (map (fun x => c * f x) l) = c * sum_list (map f l).
Proof. induction l as [|x l IH]; simpl; [ring|]. rewrite IH. ring. Qed.

Lemma sum_scale_r {A} (c : R) (f : A -> R) (l : list A) :
  sum_list (map (fun x => f x * c) l) = sum_list (map f l) * c.
Proof. induction l as [|x l IH]; simpl; [ring|]. rewrite IH. ring. Qed.

Lemma sum_ext_in {A} (f g : A -> R) (l : list A) :
  (forall x, In x l -> f x = g x) -> sum_list (map f l) = sum_list (map g l).
Proof.
  induction l as [|x l IH]; intros Hfg; simpl; [reflexivity|].
  rewrite Hfg by (left; reflexivity). rewrite IH by (intros y Hy; apply Hfg; right; exact Hy).
  reflexivity.
Qed.

Lemma sum_zero {A} (f : A -> R) (l : list A) :
  (forall x, In x l -> f x = 0) -> sum_list (map f l) = 0.
Proof.
  intros Hf. rewrite (sum_ext_in f (fun _ => 0)) by exact Hf. clear Hf.
  induction l as [|x l IH]; simpl; [reflexivity|]. rewrite IH. ring.
Qed.

Lemma sum_swap {A B} (f : A -> B -> R) (s : list A) (t : list B) :
  sum_list (map (fun i => sum_list (map (fun j => f i j) t)) s) =
  sum_list (map (fun j => sum_list (map (fun i => f i j) s)) t).
Proof.
  induction s as [|i s IH]; simpl.
  - symmetry. apply sum_zero. intros; reflexivity.
  - rewrite IH, sum_add. reflexivity.
Qed.

Lemma sum_const (c : R) (s n : nat) : sum_list (map (fun _ => c) (seq s n)) = INR n * c.
Proof.
  revert s; induction n as [|n IH]; intros s; simpl; [ring|].
  rewrite IH. destruct n; simpl; ring.
Qed.

Lemma sum_indicator (i s n : nat) :
  sum_list (map (fun j => if i =? j then 1 else 0) (seq s n)) =
  if (s <=? i) && (i <? s + n) then 1 else 0.
Proof.
  revert s; induction n as [|n IH]; intros s; simpl.
  - destruct (Nat.leb_spec s i), (Nat.ltb_spec i (s + 0)); simpl; try reflexivity; lia.
  - rewrite IH.
    destruct (Nat.eqb_spec i s), (Nat.leb_spec (S s) i), (Nat.ltb_spec i (S s + n)),
             (Nat.leb_spec s i), (Nat.ltb_spec i (s + S n)); simpl; try lia; ring.
Qed.

Lemma mat_mul_entry (a b : DMatrix R) (i j : nat) :
  get (mat_mul a b) i j = sum_list (map (fun l => get a i l * get b l j) (seq 0 (ncols a))).
Proof.
  cbn [mat_mul get fadd fmul fzero R_Float].
  rewrite (fold_sum (fun l => get a i l * get b l j)). ring.
Qed.

Lemma mul_row_sums_zero (a b : DMatrix R) (N i : nat) :
  (forall l, (l < ncols a)%nat -> sum_list (map (fun j => get b l j) (seq 0 N)) = 0) ->
  sum_list (map (fun j => get (mat_mul a b) i j) (seq 0 N)) = 0.
Proof.
  intros Hb. rewrite (sum_ext_in _ (fun j => sum_list (map (fun l => get a i l * get b l j) (seq 0 (ncols a)))))
    by (intros; apply mat_mul_entry).
  rewrite (sum_swap (fun j l => get a i l * get b l j)).
  apply sum_zero. intros l Hl. apply in_seq in Hl.
  rewrite sum_scale_l, Hb by lia. ring.
Qed.

Lemma mul_col_sums_zero (a b : DMatrix R) (N j : nat) :
  (forall l, (l < ncols a)%nat -> sum_list (map (fun i => get a i l) (seq 0 N)) = 0) ->
  sum_list (map (fun i => get (mat_mul a b) i j) (seq 0 N)) = 0.
Proof.
  intros Ha. rewrite (sum_ext_in _ (fun i => sum_list (map (fun l => get a i l * get b l j) (seq 0 (ncols a)))))
    by (intros; apply mat_mul_entry).
  rewrite (sum_swap (fun i l => get a i l * get b l j)).
  apply sum_zero. intros l Hl. apply in_seq in Hl.
  rewrite sum_scale_r, Ha by lia. ring.
Qed.

(** The matrix [r = I - (1/n) J] of [center_kernel_matrix] as it computes it. *)
Lemma centering_row_sum (n l : nat) :
  (l < n)%nat ->
  sum_list (map (fun j => (if l =? j then 1 else 0) - 1 / INR n) (seq 0 n)) = 0.
Proof.
  intros Hl. unfold Rminus.
  rewrite sum_add, sum_indicator, sum_const.
  replace ((0 <=? l) && (l <? 0 + n)) with true
    by (symmetry; apply andb_true_intro; split; [apply Nat.leb_le | apply Nat.ltb_lt]; lia).
  assert (Hn : INR n <> 0) by (apply not_0_INR; lia). field. exact Hn.
Qed.

Lemma center_kernel_matrix_sums (k : DMatrix R) :
  ncols k = nrows k ->
  exists m, center_kernel_matrix k = Ret m /\ nrows m = nrows k /\ ncols m = nrows k /\
    (forall i, sum_list (map (fun j => get m i j) (seq 0 (nrows k))) = 0) /\
    (forall j, sum_list (map (fun i => get m i j) (seq 0 (nrows k))) = 0).
Proof.
  intros Hsq. unfold center_kernel_matrix. cbn [from_usize R_Float].
  eexists. split; [reflexivity|]. split; [reflexivity|]. split; [reflexivity|]. split.
  - intros i. apply mul_row_sums_zero. intros l Hl. cbn [ncols mat_mul] in Hl. rewrite Hsq in Hl.
    cbn [get mat_sub identity from_element fsub fone fzero fdiv R_Float].
    apply centering_row_sum. exact Hl.
  - intros j. apply mul_col_sums_zero. intros l _. apply mul_col_sums_zero.
    intros p Hp. cbn [ncols mat_sub identity] in Hp.
    cbn [get mat_sub identity from_element fsub fone fzero fdiv R_Float].
    rewrite (sum_ext_in _ (fun i => (if p =? i then 1 else 0) - 1 / INR (nrows k)))
      by (intros i _; rewrite Nat.eqb_sym; reflexivity).
    apply centering_row_sum. exact Hp.
Qed.

(** Over the reals, the double-centered matrix [center_kernel_matrix] returns
    for a square [k] has zero row sums and zero column sums. *)
Theorem center_kernel_matrix_zero_sums (k : DMatrix R) :
  ncols k = nrows k ->
  exists m, center_kernel_matrix k = Ret m /\ nrows m = nrows k /\ ncols m = nrows k /\
    (forall i, sum_list (map (fun j => get m i j) (seq 0 (nrows k))) = 0) /\
    (forall j, sum_list (map (fun i => get m i j) (seq 0 (nrows k))) = 0).
Proof. exact (center_kernel_matrix_sums k). Qed.

Lemma triple_entry (a b c : DMatrix R) (i j : nat) :
  get (mat_mul (mat_mul a b) c) i j =
  sum_list (map (fun l => sum_list (map (fun p => get a i p * get b p l * get c l j)
                                        (seq 0 (ncols a))))
                (seq 0 (ncols b))).
Proof.
  rewrite mat_mul_entry. cbn [ncols mat_mul]. apply sum_ext_in. intros l _.
  rewrite mat_mul_entry, <- sum_scale_r. reflexivity.
Qed.

(** Over the reals, [center_kernel_matrix] keeps a square matrix symmetric. *)
Theorem center_kernel_matrix_symmetric (k : DMatrix R) :
  ncols k = nrows k ->
  (forall i j, (i < nrows k)%nat -> (j < nrows k)%nat -> get k i j = get k j i) ->
  exists m, center_kernel_matrix k = Ret m /\ forall i j, get m i j = get m j i.
Proof.
  intros Hsq Hk. unfold center_kernel_matrix. cbn [from_usize R_Float].
  eexists. split; [reflexivity|]. intros i j.
  set (r := mat_sub _ _).
  assert (Hr : forall a b, get r a b = get r b a)
    by (intros a b; unfold r; cbn; rewrite Nat.eqb_sym; reflexivity).
  rewrite !triple_entry. rewrite (sum_swap (fun l p => get r j p * get k p l * get r l i)).
  assert (Hc : ncols r = nrows k) by reflexivity. rewrite Hc, Hsq.
  apply sum_ext_in. intros a Ha. apply sum_ext_in. intros b Hb.
  apply in_seq in Ha, Hb.
  rewrite (Hr i b), (Hr a j), (Hk b a) by lia. ring.
Qed.

Lemma sum_pick (f : nat -> R) (i s n : nat) :
  (s <= i < s + n)%nat ->
  sum_list (map (fun p => if i =? p then f p else 0) (seq s n)) = f i.
Proof.
  revert s; induction n as [|n IH]; intros s Hi; [lia|]. simpl.
  destruct (Nat.eqb_spec i s) as [->|Hne].
  - rewrite sum_zero; [ring|]. intros p Hp. apply in_seq in Hp.
    destruct (Nat.eqb_spec s p); [lia | reflexivity].
  - rewrite IH by lia. ring.
Qed.

Lemma centering_mul (n i : nat) (f : nat -> R) :
  (i < n)%nat ->
  sum_list (map (fun p => ((if i =? p then 1 else 0) - 1 / INR n) * f p) (seq 0 n)) =
  f i - 1 / INR n * sum_list (map f (seq 0 n)).
Proof.
  intros Hi.
  rewrite (sum_ext_in _ (fun p => (if i =? p then f p else 0) + (- (1 / INR n)) * f p))
    by (intros p _; destruct (i =? p); ring).
  rewrite sum_add, sum_pick, sum_scale_l by lia. ring.
Qed.

Lemma center_fixes (k : DMatrix R) :
  ncols k = nrows k ->
  (forall i, (i < nrows k)%nat -> sum_list (map (fun j => get k i j) (seq 0 (nrows k))) = 0) ->
  (forall j, (j < nrows k)%nat -> sum_list (map (fun i => get k i j) (seq 0 (nrows k))) = 0) ->
  exists m, center_kernel_matrix k = Ret m /\ nrows m = nrows k /\ ncols m = nrows k /\
    forall i j, (i < nrows k)%nat -> (j < nrows k)%nat -> get m i j = get k i j.
Proof.
  intros Hsq Hr Hc. unfold center_kernel_matrix. cbn [from_usize R_Float].
  eexists. split; [reflexivity|]. split; [reflexivity|]. split; [reflexivity|].
  intros i j Hi Hj. rewrite mat_mul_entry. cbn [ncols mat_mul]. rewrite Hsq.
  rewrite (sum_ext_in _ (fun l => ((if j =? l then 1 else 0) - 1 / INR (nrows k)) * get k i l)).
  2:{ intros l Hl. apply in_seq in Hl. rewrite mat_mul_entry.
      cbn [ncols get mat_sub identity from_element fsub fone fzero fdiv R_Float].
      rewrite (centering_mul (nrows k) i (fun p => get k p l)) by exact Hi.
      rewrite Hc by lia. rewrite Nat.eqb_sym. ring. }
  rewrite (centering_mul (nrows k) j (fun l => get k i l)) by exact Hj.
  rewrite Hr by exact Hi. ring.
Qed.

(** Over the reals, [center_kernel_matrix] leaves a square matrix whose rows
    and columns already sum to zero unchanged (entry by entry, within its
    n x n range); in particular centering a matrix it has already centered
    returns the same entries again. *)
Theorem center_kernel_matrix_idempotent (k : DMatrix R) :
  ncols k = nrows k ->
  ((forall i, (i < nrows k)%nat -> sum_list (map (fun j => get k i j) (seq 0 (nrows k))) = 0) ->
   (forall j, (j < nrows k)%nat -> sum_list (map (fun i => get k i j) (seq 0 (nrows k))) = 0) ->
   exists m, center_kernel_matrix k = Ret m /\
     forall i j, (i < nrows k)%nat -> (j < nrows k)%nat -> get m i j = get k i j) /\
  (forall m, center_kernel_matrix k = Ret m ->
   exists m', center_kernel_matrix m = Ret m' /\
     forall i j, (i < nrows k)%nat -> (j < nrows k)%nat -> get m' i j = get m i j).
Proof.
  intros Hsq. split.
  - intros Hr Hc. destruct (center_fixes k Hsq Hr Hc) as [m [Em [_ [_ Hm]]]].
    exists m. split; assumption.
  - intros m Em. destruct (center_kernel_matrix_sums k Hsq) as [m1 [E1 [R1 [C1 [Hr Hc]]]]].
    rewrite Em in E1. injection E1 as <-.
    rewrite <- R1 in Hr, Hc |- *.
    destruct (center_fixes m (eq_trans C1 (eq_sym R1))
                (fun i _ => Hr i) (fun j _ => Hc j)) as [m' [E' [_ [_ Hm']]]].
    exists m'. split; [exact E'|]. exact Hm'.
Qed.

Lemma center_kernel_matrix_idempotent_witness :
  ncols centered_sample = nrows centered_sample /\
  (forall i, (i < nrows centered_sample)%nat ->
     sum_list (map (fun j => get centered_sample i j) (seq 0 (nrows centered_sample))) = 0) /\
  (forall j, (j < nrows centered_sample)%nat ->
     sum_list (map (fun i => get centered_sample i j) (seq 0 (nrows centered_sample))) = 0) /\
  exists m, center_kernel_matrix centered_sample = Ret m /\
    forall i j, (i < nrows centered_sample)%nat -> (j < nrows centered_sample)%nat ->
      get m i j = get centered_sample i j.
Proof.
  assert (Hr : forall i, (i < nrows centered_sample)%nat ->
     sum_list (map (fun j => get centered_sample i j) (seq 0 (nrows centered_sample))) = 0)
    by (intros i Hi; simpl in Hi; destruct i as [|[|i]]; [cbn; lra | cbn; lra | lia]).
  assert (Hc : forall j, (j < nrows centered_sample)%nat ->
     sum_list (map (fun i => get centered_sample i j) (seq 0 (nrows centered_sample))) = 0)
    by (intros j Hj; simpl in Hj; destruct j as [|[|j]]; [cbn; lra | cbn; lra | lia]).
  split; [reflexivity|]. split; [exact Hr|]. split; [exact Hc|].
  apply (proj1 (center_kernel_matrix_idempotent centered_sample eq_refl)); assumption.
Defined.

Lemma center_kernel_matrix_zero_sums_witness :
  ncols sample_kernel = nrows sample_kernel /\
  exists m, center_kernel_matrix sample_kernel = Ret m /\
    nrows m = nrows sample_kernel /\ ncols m = nrows sample_kernel /\
    (forall i, sum_list (map (fun j => get m i j) (seq 0 (nrows sample_kernel))) = 0) /\
    (forall j, sum_list (map (fun i => get m i j) (seq 0 (nrows sample_kernel))) = 0).
Proof. split; [reflexivity|]. apply center_kernel_matrix_zero_sums. reflexivity. Defined.

Lemma center_kernel_matrix_symmetric_witness :
  ncols sample_kernel = nrows sample_kernel /\
  (forall i j, (i < nrows sample_kernel)%nat -> (j < nrows sample_kernel)%nat ->
     get sample_kernel i j = get sample_kernel j i) /\
  exists m, center_kernel_matrix sample_kernel = Ret m /\ forall i j, get m i j = get m j i.
Proof.
  assert (Hs : forall i j, (i < nrows sample_kernel)%nat -> (j < nrows sample_kernel)%nat ->
             get sample_kernel i j = get sample_kernel j i)
    by (intros i j _ _; simpl; rewrite Nat.add_comm; reflexivity).
  split; [reflexivity|]. split; [exact Hs|].
  apply center_kernel_matrix_symmetric; [reflexivity | exact Hs].
Defined.

(** *** [center_data]: the column means, subtracted. *)

Lemma nth_map_lt {A B} (f : A -> B) (l : list A) (d : B) (d0 : A) (i : nat) :
  (i < length l)%nat -> nth i (map f l) d = f (nth i l d0).
Proof. intros Hi. rewrite (nth_indep _ d (f d0)) by (rewrite length_map; exact Hi). apply map_nth. Qed.

Lemma add_at_nth (means : list R) (j : nat) (val : R) :
  (j < length means)%nat ->
  exists means', add_at means j val = Ret means' /\ length means' = length means /\
    forall q, nth q means' 0 = nth q means 0 + (if q =? j then val else 0).
Proof.
  intros Hj. unfold add_at, vec_index.
  destruct (nth_error means j) as [m|] eqn:E; [|apply nth_error_None in E; lia].
  eexists. split; [reflexivity|]. split.
  - rewrite length_app, length_firstn. cbn [length]. rewrite length_skipn. lia.
  - intros q. cbn [fadd R_Float]. apply nth_error_nth with (d := 0) in E.
    destruct (Nat.ltb_spec q j) as [Hq|Hq].
    + rewrite app_nth1 by (rewrite length_firstn; lia). rewrite nth_firstn.
      apply Nat.ltb_lt in Hq. rewrite Hq. replace (q =? j) with false by (symmetry; apply Nat.eqb_neq; apply Nat.ltb_lt in Hq; lia).
      ring.
    + rewrite app_nth2 by (rewrite length_firstn; lia). rewrite length_firstn.
      replace (Nat.min j (length means)) with j by lia.
      destruct (Nat.eqb_spec q j) as [->|Hne].
      * rewrite Nat.sub_diag. simpl. rewrite E. ring.
      * replace (q - j)%nat with (S (q - S j)) by lia. cbn [nth].
        rewrite nth_skipn. replace (S j + (q - S j))%nat with q by lia. ring.
Qed.

Lemma accumulate_row_nth (row means : list R) (j : nat) :
  (j + length row <= length means)%nat ->
  exists means', accumulate_row means j row = Ret means' /\ length means' = length means /\
    forall q, nth q means' 0 =
      nth q means 0 + (if (j <=? q) && (q <? j + length row) then nth (q - j) row 0 else 0).
Proof.
  revert means j; induction row as [|val row IH]; intros means j Hl; simpl.
  - eexists. split; [reflexivity|]. split; [reflexivity|]. intros q.
    destruct (j <=? q), (q <? j + 0); simpl; try ring. destruct (q - j)%nat; ring.
  - simpl in Hl. destruct (add_at_nth means j val) as [m1 [E1 [L1 N1]]]; [lia|].
    rewrite E1. simpl. destruct (IH m1 (S j)) as [m2 [E2 [L2 N2]]]; [lia|].
    exists m2. split; [exact E2|]. split; [lia|]. intros q. rewrite N2, N1.
    destruct (Nat.eqb_spec q j) as [->|Hne].
    + rewrite Nat.leb_refl, Nat.sub_diag.
      replace (S j <=? j) with false by (symmetry; apply Nat.leb_gt; lia).
      replace (j <? j + S (length row)) with true by (symmetry; apply Nat.ltb_lt; lia).
      simpl. ring.
    + destruct (Nat.leb_spec (S j) q), (Nat.ltb_spec q (S j + length row)),
               (Nat.leb_spec j q), (Nat.ltb_spec q (j + S (length row))); simpl; try lia; try ring.
      replace (q - j)%nat with (S (q - S j)) by lia. simpl. ring.
Qed.

Lemma accumulate_nth (x : list (list R)) (means : list R) :
  Forall (fun row => (length row <= length means)%nat) x ->
  exists means', accumulate means x = Ret means' /\ length means' = length means /\
    forall q, nth q means' 0 = nth q means 0 + sum_list (map (fun row => nth q row 0) x).
Proof.
  revert means; induction x as [|row x IH]; intros means Hf; simpl.
  - eexists. split; [reflexivity|]. split; [reflexivity|]. intros q. ring.
  - inversion Hf as [|? ? Hrow Hrest]; subst.
    destruct (accumulate_row_nth row means 0) as [m1 [E1 [L1 N1]]]; [lia|].
    rewrite E1. simpl. destruct (IH m1) as [m2 [E2 [L2 N2]]].
    + eapply Forall_impl; [|exact Hrest]. simpl. intros r Hr. lia.
    + exists m2. split; [exact E2|]. split; [lia|]. intros q. rewrite N2, N1.
      rewrite Nat.sub_0_r. simpl.
      destruct (Nat.ltb_spec q (length row)); [ring|].
      rewrite (nth_overflow row 0) by lia. ring.
Qed.

Lemma sum_rows_seq (x : list (list R)) (f : list R -> R) :
  sum_list (map (fun i => f (nth i x [])) (seq 0 (length x))) = sum_list (map f x).
Proof.
  rewrite <- (map_map (fun i => nth i x []) f). rewrite map_nth_seq. reflexivity.
Qed.

(** Over the reals, [center_data] on [n >= 1] rows of width [d] returns the
    n x d matrix whose entry [(i, j)] is [x[i][j]] minus the mean of column
    [j]; each of its columns sums to zero. *)
Theorem center_data_spec (x : list (list R)) (d : nat) :
  x <> [] -> Forall (fun row => length row = d) x ->
  exists m, center_data x = Ret m /\ nrows m = length x /\ ncols m = d /\
    (forall i j, (i < length x)%nat -> (j < d)%nat ->
       get m i j = nth j (nth i x []) 0 - sum_list (map (fun row => nth j row 0) x) / INR (length x)) /\
    (forall j, (j < d)%nat -> sum_list (map (fun i => get m i j) (seq 0 (length x))) = 0).
Proof.
  intros Hne Hf.
  assert (Hd : length (nth 0 x []) = d)
    by (destruct x as [|r0 rest]; [contradiction|]; inversion Hf; assumption).
  assert (Hn : INR (length x) <> 0)
    by (apply not_0_INR; destruct x; [contradiction|]; discriminate).
  unfold center_data. cbn [from_usize R_Float]. rewrite Hd.
  destruct (accumulate_nth x (repeat fzero d)) as [ms [Ems [Lms Nms]]].
  { eapply Forall_impl; [|exact Hf]. simpl. intros r Hr. rewrite repeat_length. lia. }
  rewrite Ems. cbn [bind].
  assert (Hentry : forall i j, (i < length x)%nat -> (j < d)%nat ->
    nth j (nth i (map (fun row => firstn d (map (fun '(v, m) => fsub v m)
                   (combine row (map (fun m => fdiv m (INR (length x))) ms)))) x) []) fzero =
    nth j (nth i x []) 0 - sum_list (map (fun row => nth j row 0) x) / INR (length x)).
  { intros i j Hi Hj.
    assert (Hli : length (nth i x []) = d) by (rewrite Forall_forall in Hf; apply Hf, nth_In, Hi).
    rewrite (nth_map_lt _ _ _ [] _ Hi), nth_firstn.
    replace (j <? d) with true by (symmetry; apply Nat.ltb_lt; exact Hj).
    assert (Hc : length (combine (nth i x []) (map (fun m => fdiv m (INR (length x))) ms)) = d)
      by (rewrite length_combine, length_map, Lms, repeat_length, Hli; lia).
    rewrite (nth_map_lt _ _ _ (0, 0) _ (eq_ind_r (fun n => (j < n)%nat) Hj Hc)).
    rewrite combine_nth by (rewrite length_map, Lms, repeat_length, Hli; reflexivity).
    cbn [fsub fdiv R_Float].
    rewrite (nth_map_lt _ _ _ 0 _ (eq_ind_r (fun n => (j < n)%nat) Hj (eq_trans Lms (repeat_length _ _)))).
    rewrite Nms, nth_repeat. cbn [fzero R_Float]. unfold Rdiv. ring. }
  eexists. split; [reflexivity|]. cbn [nrows ncols get from_rows]. rewrite length_map.
  split; [reflexivity|]. split; [reflexivity|]. split.
  - intros i j Hi Hj. apply Hentry; assumption.
  - intros j Hj. rewrite (sum_ext_in _ (fun i => nth j (nth i x []) 0 -
                      sum_list (map (fun row => nth j row 0) x) / INR (length x)))
      by (intros i Hi; apply in_seq in Hi; apply Hentry; lia).
    unfold Rminus. rewrite sum_add, sum_const.
    rewrite (sum_rows_seq x (fun row => nth j row 0)). field. exact Hn.
Qed.

Lemma center_data_spec_witness :
  two_points <> [] /\ Forall (fun row => length row = 2%nat) two_points /\
  exists m, center_data two_points = Ret m /\ nrows m = length two_points /\ ncols m = 2%nat /\
    (forall i j, (i < length two_points)%nat -> (j < 2)%nat ->
       get m i j = nth j (nth i two_points []) 0 -
                   sum_list (map (fun row => nth j row 0) two_points) / INR (length two_points)) /\
    (forall j, (j < 2)%nat -> sum_list (map (fun i => get m i j) (seq 0 (length two_points))) = 0).
Proof.
  assert (Hf : Forall (fun row => length row = 2%nat) two_points) by (repeat constructor).
  split; [discriminate|]. split; [exact Hf|].
  apply center_data_spec; [discriminate | exact Hf].
Defined.

(** *** [determine_signs]: the first entry of largest magnitude. *)

Lemma sign_fold_char (l : list R) (m : R) (f : bool) :
  0 <= m ->
  (fold_left sign_step l (m, f) = (m, f) /\ Forall (fun v => Rabs v <= m) l) \/
  (exists p, (p < length l)%nat /\ m < Rabs (nth p l 0) /\
     fold_left sign_step l (m, f) =
       (Rabs (nth p l 0), if Rlt_dec (nth p l 0) 0 then true else false) /\
     (forall q, (q < p)%nat -> Rabs (nth q l 0) < Rabs (nth p l 0)) /\
     (forall q, (q < length l)%nat -> Rabs (nth q l 0) <= Rabs (nth p l 0))).
Proof.
  revert m f; induction l as [|v l IH]; intros m f Hm; simpl.
  - left. split; [reflexivity | constructor].
  - destruct (Rlt_dec m (Rabs v)) as [Hlt|Hge].
    + right. destruct (IH (Rabs v) (if Rlt_dec v 0 then true else false) (Rabs_pos v))
        as [[E Hall] | [p [Hp [Hmp [E [Hb Ha]]]]]].
      * exists 0%nat. simpl. split; [lia|]. split; [exact Hlt|]. split; [exact E|].
        split; [intros; lia|]. intros [|q] Hq; simpl; [lra|].
        rewrite Forall_forall in Hall. apply Hall, nth_In. simpl in Hq. lia.
      * exists (S p). simpl. split; [lia|]. split; [lra|]. split; [exact E|].
        split; [intros [|q] Hq; simpl; [exact Hmp | apply Hb; lia]|].
        intros [|q] Hq; [lra | apply Ha; simpl in Hq; lia].
    + destruct (IH m f Hm) as [[E Hall] | [p [Hp [Hmp [E [Hb Ha]]]]]].
      * left. split; [exact E|]. constructor; [lra | exact Hall].
      * right. exists (S p). simpl. split; [lia|]. split; [exact Hmp|]. split; [exact E|].
        split; [intros [|q] Hq; simpl; [lra | apply Hb; lia]|].
        intros [|q] Hq; [simpl; lra | apply Ha; simpl in Hq; lia].
Qed.

(** Over the reals, [determine_signs u dim] panics when [u] has fewer than
    [dim] columns, and otherwise returns one sign per column [j < dim].  Each
    sign is [1] or [-1]: it is [1] for a column of zeros, and otherwise it
    makes the first entry of largest magnitude of the column positive once
    the column is multiplied by it. *)
Theorem determine_signs_spec (um : DMatrix R) (dim : nat) :
  ((ncols um < dim)%nat -> determine_signs um dim = Panic) /\
  ((dim <= ncols um)%nat ->
     determine_signs um dim = Ret (map (fun j => column_sign (column_entries um j)) (seq 0 dim))) /\
  (forall col : list R,
     (column_sign col = 1 \/ column_sign col = -1) /\
     ((Forall (fun v => v = 0) col /\ column_sign col = 1) \/
      (exists p, (p < length col)%nat /\
         (forall q, (q < length col)%nat -> Rabs (nth q col 0) <= Rabs (nth p col 0)) /\
         (forall q, (q < p)%nat -> Rabs (nth q col 0) < Rabs (nth p col 0)) /\
         0 < column_sign col * nth p col 0))).
Proof.
  split; [|split].
  - intros Hlt. unfold determine_signs, columns.
    destruct (Nat.leb_spec (0 + dim) (ncols um)); [lia | reflexivity].
  - intros Hle. unfold determine_signs, columns.
    destruct (Nat.leb_spec (0 + dim) (ncols um)); [|lia]. cbn [bind ncols]. reflexivity.
  - intros col. unfold column_sign. cbn [fzero fone fneg R_Float].
    destruct (sign_fold_char col 0 false (Rle_refl 0)) as [[E Hall] | [p [Hp [Hmp [E [Hb Ha]]]]]];
      rewrite E.
    + split; [left; reflexivity|]. left. split; [|reflexivity].
      eapply Forall_impl; [|exact Hall]. simpl. intros v Hv.
      destruct (Req_dec v 0) as [|Hv0]; [assumption|]. pose proof (Rabs_pos_lt v Hv0). lra.
    + split; [destruct (Rlt_dec (nth p col 0) 0); [right | left]; reflexivity|].
      right. exists p. split; [exact Hp|]. split; [exact Ha|]. split; [exact Hb|].
      destruct (Rlt_dec (nth p col 0) 0) as [Hn|Hn].
      * lra.
      * rewrite Rabs_right in Hmp by lra. lra.
Qed.

(** *** The kernel functions: values on the diagonal, ranges, translation. *)

Lemma sum_list_map_seq (f : R -> R) (a : list R) :
  sum_list (map (fun i => f (nth i a 0)) (seq 0 (length a))) = sum_list (map f a).
Proof. rewrite <- (map_map (fun i => nth i a 0) f), map_nth_seq. reflexivity. Qed.

Lemma sum_sq_diff_index (a b : list R) :
  length a = length b ->
  sum_sq_diff a b = sum_list (map (fun i => (nth i a 0 - nth i b 0) * (nth i a 0 - nth i b 0))
                                  (seq 0 (length a))).
Proof.
  intros Hl. unfold sum_sq_diff. cbn [fadd fsub fmul fzero R_Float].
  rewrite (fold_combine_sum (fun p q => (p - q) * (p - q))) by exact Hl. ring.
Qed.

Lemma sum_sq_diff_nonneg (a b : list R) : 0 <= sum_sq_diff a b.
Proof.
  unfold sum_sq_diff. cbn [fadd fsub fmul fzero R_Float].
  generalize (combine a b) as l. intros l.
  assert (G : forall acc, 0 <= acc ->
                0 <= fold_left (fun sum '(x, y) => sum + (x - y) * (x - y)) l acc).
  { induction l as [|[x y] l IH]; intros acc Hacc; simpl; [exact Hacc|].
    apply IH. pose proof (Rle_0_sqr (x - y)). unfold Rsqr in *. lra. }
  apply G. lra.
Qed.

Lemma exp_le_1 (x : R) : x <= 0 -> exp x <= 1.
Proof.
  intros Hx. rewrite <- exp_0. destruct (Req_dec x 0) as [->|Hne]; [lra|].
  left. apply exp_increasing. lra.
Qed.

Lemma ln_nonneg (x : R) : 1 <= x -> 0 <= ln x.
Proof.
  intros Hx. rewrite <- ln_1. destruct (Req_dec x 1) as [->|Hne]; [lra|].
  left. apply ln_increasing; lra.
Qed.

(** Over the reals, a point's kernel value with itself is [1] for the
    rational-quadratic and squared-exponential kernels, whatever the
    parameters, and the (non-negative) sum of its squared entries for the
    linear kernel. *)
Theorem compute_self (a : list R) :
  compute Linear a a = sum_list (map (fun v => v * v) a) /\ 0 <= compute Linear a a /\
  (forall gamma alpha, compute (RationalQuadratic gamma alpha) a a = 1) /\
  (forall gamma, compute (SquaredExponential gamma) a a = 1).
Proof.
  assert (Hs : sum_sq_diff a a = 0).
  { rewrite sum_sq_diff_index by reflexivity. apply sum_zero. intros; ring. }
  assert (HL : compute Linear a a = sum_list (map (fun v => v * v) a)).
  { cbn [compute]. unfold compute_linear. simpl.
    rewrite (fold_combine_sum Rmult) by reflexivity.
    rewrite (sum_list_map_seq (fun v => v * v)). ring. }
  split; [exact HL|]. split; [|split].
  - rewrite HL. clear. induction a as [|v a IH]; simpl; [lra|].
    pose proof (Rle_0_sqr v). unfold Rsqr in *. lra.
  - intros gamma alpha. cbn [compute compute_rational_quadratic fpowf fadd fmul fneg fone R_Float].
    rewrite Hs, Rmult_0_r, Rplus_0_r. unfold Rpower. rewrite ln_1, Rmult_0_r. apply exp_0.
  - intros gamma. cbn [compute compute_squared_exponential fexp fmul fneg R_Float].
    rewrite Hs, Rmult_0_r. apply exp_0.
Qed.

(** Over the reals, with [gamma >= 0] (and [alpha >= 0]), the
    squared-exponential and rational-quadratic kernels take values in
    (0, 1]. *)
Theorem compute_bounds (a b : list R) (gamma alpha : R) :
  0 <= gamma -> 0 <= alpha ->
  0 < compute (SquaredExponential gamma) a b <= 1 /\
  0 < compute (RationalQuadratic gamma alpha) a b <= 1.
Proof.
  intros Hg Ha. pose proof (sum_sq_diff_nonneg a b) as Hs.
  cbn [compute compute_squared_exponential compute_rational_quadratic
       fexp fpowf fadd fmul fneg fone R_Float].
  split.
  - split; [apply exp_pos|]. apply exp_le_1.
    pose proof (Rmult_le_pos gamma (sum_sq_diff a b) Hg Hs). lra.
  - unfold Rpower. split; [apply exp_pos|]. apply exp_le_1.
    assert (H1 : 0 <= ln (1 + gamma * sum_sq_diff a b)).
    { apply ln_nonneg. pose proof (Rmult_le_pos gamma (sum_sq_diff a b) Hg Hs). lra. }
    pose proof (Rmult_le_pos alpha _ Ha H1). lra.
Qed.

Lemma compute_bounds_witness :
  0 <= 1 /\ 0 <= 2 /\
  (0 < compute (SquaredExponential 1) [0] [1] <= 1 /\
   0 < compute (RationalQuadratic 1 2) [0] [1] <= 1).
Proof. split; [lra|]. split; [lra|]. apply compute_bounds; lra. Defined.

Lemma shift_length (c a : list R) : length a = length c -> length (shift c a) = length c.
Proof. intros Hl. unfold shift. rewrite length_map, length_combine. lia. Qed.

Lemma shift_nth (c a : list R) (i : nat) :
  length a = length c -> (i < length c)%nat -> nth i (shift c a) 0 = nth i a 0 + nth i c 0.
Proof.
  intros Hl Hi. unfold shift.
  rewrite (nth_map_lt _ _ _ (0, 0)) by (rewrite length_combine; lia).
  rewrite combine_nth by exact Hl. reflexivity.
Qed.

Lemma sum_sq_diff_shift (a b c : list R) :
  length a = length c -> length b = length c ->
  sum_sq_diff (shift c a) (shift c b) = sum_sq_diff a b.
Proof.
  intros Ha Hb.
  rewrite !sum_sq_diff_index by (rewrite ?shift_length by assumption; lia).
  rewrite shift_length, Ha by exact Ha. apply sum_ext_in. intros i Hi. apply in_seq in Hi.
  rewrite !shift_nth by (assumption || lia). ring.
Qed.

Lemma compute_shift (k : Kernel R) (a b c : list R) :
  k <> Linear -> length a = length c -> length b = length c ->
  compute k (shift c a) (shift c b) = compute k a b.
Proof.
  intros Hk Ha Hb. destruct k as [|gamma alpha|gamma]; [contradiction| |];
    cbn [compute]; unfold compute_rational_quadratic, compute_squared_exponential;
    rewrite sum_sq_diff_shift by assumption; reflexivity.
Qed.

(** Over the reals, the rational-quadratic and squared-exponential kernels
    are invariant under translation: shifting both points of the same length
    by the same vector [c] leaves the kernel value unchanged. *)
Theorem compute_translation_invariant (k : Kernel R) (a b c : list R) :
  k <> Linear -> length a = length c -> length b = length c ->
  compute k (shift c a) (shift c b) = compute k a b.
Proof. exact (compute_shift k a b c). Qed.

Lemma compute_translation_invariant_witness :
  SquaredExponential 1 <> Linear /\ length [0; 1] = length [5; 7] /\ length [2; 3] = length [5; 7] /\
  compute (SquaredExponential 1) (shift [5; 7] [0; 1]) (shift [5; 7] [2; 3]) =
  compute (SquaredExponential 1) [0; 1] [2; 3].
Proof.
  split; [discriminate|]. split; [reflexivity|]. split; [reflexivity|].
  apply compute_translation_invariant; [discriminate | reflexivity | reflexivity].
Defined.

(** *** The errors of [apply]. *)

Section Errors.

Context {T : Type} `{Float T}.

Lemma mapM_no_raise {A B} (f : A -> outcome B) (l : list A) (e : KPcaError) :
  (forall a, f a <> Raise e) -> mapM f l <> Raise e.
Proof.
  intros Hf. induction l as [|a l IH]; simpl; [discriminate|].
  destruct (f a) as [b|e0|] eqn:Ea; simpl; [| |discriminate].
  2:{ intros E. injection E as ->. exact (Hf a Ea). }
  destruct (mapM f l); simpl; [discriminate | exact IH | discriminate].
Qed.

Lemma add_at_no_raise (means : list T) (j : nat) (val : T) (e : KPcaError) :
  add_at means j val <> Raise e.
Proof. unfold add_at, vec_index. destruct (nth_error means j); discriminate. Qed.

Lemma accumulate_row_no_raise (row means : list T) (j : nat) (e : KPcaError) :
  accumulate_row means j row <> Raise e.
Proof.
  revert means j; induction row as [|v row IH]; intros means j; simpl; [discriminate|].
  pose proof (add_at_no_raise means j v e) as Ha.
  destruct (add_at means j v); simpl; [apply IH | congruence | discriminate].
Qed.

Lemma accumulate_no_raise (x : list (list T)) (means : list T) (e : KPcaError) :
  accumulate means x <> Raise e.
Proof.
  revert means; induction x as [|row x IH]; intros means; simpl; [discriminate|].
  pose proof (accumulate_row_no_raise row means 0 e) as Ha.
  destruct (accumulate_row means 0 row); simpl; [apply IH | congruence | discriminate].
Qed.

Lemma center_data_raise (x : list (list T)) (e : KPcaError) :
  center_data x = Raise e -> e = computation_failure "Unable to convert data length to float".
Proof.
  unfold center_data. destruct (from_usize (length x)); [|congruence].
  pose proof (accumulate_no_raise x (repeat fzero (length (nth 0 x []))) e) as Ha.
  destruct (accumulate _ x); simpl; congruence.
Qed.

Lemma center_kernel_matrix_raise (k : DMatrix T) (e : KPcaError) :
  center_kernel_matrix k = Raise e -> e = computation_failure "Unable to convert dimension to float".
Proof. unfold center_kernel_matrix. destruct (from_usize (nrows k)); congruence. Qed.

Lemma validate_raise (self : KernelPca T) (data : list (list T)) (e : KPcaError) :
  validate self data = Raise e -> In e validation_errors.
Proof.
  unfold validate, validation_errors.
  destruct (length data =? 0); [intros E; injection E as <-; simpl; tauto|].
  destruct (length (nth 0 data []) =? 0); [intros E; injection E as <-; simpl; tauto|].
  assert (Hc : forall d (rows : list (list T)), check_rows d rows = Raise e ->
                 e = invalid_data "Input data has inconsistent dimensionality across records").
  { intros d rows. induction rows as [|r rows IH]; simpl; [discriminate|].
    destruct (negb (length r =? d)); [congruence | exact IH]. }
  destruct (check_rows _ data) as [[]| e' |] eqn:Ec; simpl.
  - destruct (embed_dim self =? 0); [intros E; injection E as <-; simpl; tauto|].
    destruct (_ <? embed_dim self); [intros E; injection E as <-; simpl; tauto | discriminate].
  - intros E. injection E as <-. apply Hc in Ec. subst e'. simpl. tauto.
  - discriminate.
Qed.

Lemma after_svd_raise (self : KernelPca T) (s : SVD T) (e : KPcaError) :
  (sv_selection <- vec_rows (singular_values s) 0 (embed_dim self) ;;
   let sigma := match kernel self with
                | Linear => from_diagonal sv_selection
                | _ => from_diagonal (map fsqrt sv_selection)
                end in
   u <- match u s with
        | Some u => Ret u
        | None => Raise (computation_failure "SVD Failure")
        end ;;
   signs <- determine_signs u (embed_dim self) ;;
   u_selection <- columns u 0 (embed_dim self) ;;
   let embeddings := mat_mul u_selection sigma in
   mapM (fun row => mapM (fun '(j, val) => s <- vec_index signs j ;; Ret (fmul val s))
                          (combine (seq 0 (length row)) row))
        (row_list embeddings)) = Raise e ->
  e = computation_failure "SVD Failure".
Proof.
  unfold vec_rows. destruct (_ <=? _); cbn [bind]; [|discriminate].
  destruct (u s) as [um|]; cbn [bind]; [|congruence].
  unfold determine_signs, columns. destruct (_ <=? ncols um); cbn [bind]; [|discriminate].
  intros E. exfalso. revert E. apply mapM_no_raise. intros row.
  apply mapM_no_raise. intros [j v]. unfold vec_index.
  destruct (nth_error _ j); discriminate.
Qed.

End Errors.

(** Every error [apply] returns is either the error [validate] reports, one
    of its five validation errors, or, after validation succeeded, one of
    three computation failures (the two conversions to [T] and the missing
    [U] of the SVD); over the reals, where the conversions always succeed,
    the only error past validation is [ComputationFailure("SVD Failure")]. *)
Theorem apply_error_cases :
  (forall (T : Type) (F : Float T) (svd : DMatrix T -> SVD T) (self : KernelPca T)
          (data : list (list T)) (e : KPcaError),
     apply svd self data = Raise e ->
     (validate self data = Raise e /\ In e validation_errors) \/
     (validate self data = Ret tt /\ In e computation_errors)) /\
  (forall (svd : DMatrix R -> SVD R) (self : KernelPca R) (data : list (list R)) (e : KPcaError),
     apply svd self data = Raise e ->
     (validate self data = Raise e /\ In e validation_errors) \/
     (validate self data = Ret tt /\ e = computation_failure "SVD Failure")).
Proof.
  assert (G : forall (T : Type) (F : Float T) (svd : DMatrix T -> SVD T) (self : KernelPca T)
          (data : list (list T)) (e : KPcaError),
     apply svd self data = Raise e ->
     (validate self data = Raise e /\ In e validation_errors) \/
     (validate self data = Ret tt /\
      ((kernel self = Linear /\ center_data data = Raise e) \/
       (kernel self <> Linear /\ center_kernel_matrix (form_kernel_matrix self data) = Raise e) \/
       e = computation_failure "SVD Failure"))).
  { intros T F svd self data e. unfold apply. intros Happ.
    destruct (validate self data) as [[]|e'|] eqn:Ev; cbn [bind] in Happ; [| |discriminate].
    - right. split; [reflexivity|].
      destruct (kernel self) eqn:Ek.
      + destruct (center_data data) as [x|e'|] eqn:Ec; cbn [bind] in Happ; [| |discriminate].
        * right. right. apply (after_svd_raise self (svd x) e). rewrite Ek. exact Happ.
        * injection Happ as <-. left. split; reflexivity.
      + destruct (center_kernel_matrix _) as [x|e'|] eqn:Ec; cbn [bind] in Happ; [| |discriminate].
        * right. right. apply (after_svd_raise self (svd x) e). rewrite Ek. exact Happ.
        * injection Happ as <-. right. left. split; [discriminate | reflexivity].
      + destruct (center_kernel_matrix _) as [x|e'|] eqn:Ec; cbn [bind] in Happ; [| |discriminate].
        * right. right. apply (after_svd_raise self (svd x) e). rewrite Ek. exact Happ.
        * injection Happ as <-. right. left. split; [discriminate | reflexivity].
    - injection Happ as <-. left. split; [reflexivity|]. eapply validate_raise; exact Ev. }
  split.
  - intros T F svd self data e Ha.
    destruct (G T F svd self data e Ha) as [Hv | [Hv [[_ Hc] | [[_ Hc] | He]]]]; [left; exact Hv| | |];
      right; split; try exact Hv; unfold computation_errors; simpl.
    + left. symmetry. exact (center_data_raise data e Hc).
    + right. left. symmetry. exact (center_kernel_matrix_raise _ e Hc).
    + right. right. left. symmetry. exact He.
  - intros svd self data e Ha.
    destruct (G R R_Float svd self data e Ha) as [Hv | [Hv [[_ Hc] | [[_ Hc] | He]]]]; [left; exact Hv| | |].
    + exfalso. revert Hc. unfold center_data. cbn [from_usize R_Float].
      pose proof (accumulate_no_raise data (repeat fzero (length (nth 0 data []))) e) as Ha'.
      destruct (accumulate _ data); simpl; congruence.
    + exfalso. revert Hc. unfold center_kernel_matrix. cbn [from_usize R_Float]. discriminate.
    + right. split; [exact Hv | exact He].
Qed.

(** *** The shape and content of the embedding. *)

Lemma finish_inv (self : KernelPca R) (s : SVD R) (e : list (list R)) :
  finish self s = Ret e ->
  exists sv um, s = mkSVD sv (Some um) /\
    (embed_dim self <= length sv)%nat /\ (embed_dim self <= ncols um)%nat.
Proof.
  destruct s as [sv u0]. unfold finish, vec_rows. simpl singular_values.
  intros Hf.
  destruct (Nat.leb_spec (0 + embed_dim self) (length sv)); cbn [bind] in Hf; [|discriminate].
  destruct u0 as [um|]; cbn [bind u] in Hf; [|discriminate].
  unfold determine_signs, columns in Hf.
  destruct (Nat.leb_spec (0 + embed_dim self) (ncols um)); cbn [bind] in Hf; [|discriminate].
  exists sv, um. split; [reflexivity|]. split; lia.
Qed.

(** For a decomposition routine with the output shapes of a thin SVD and an
    input that passes validation, [apply] returns an embedding of n rows of
    [embed_dim] entries when [embed_dim <= min(n, d)], and panics when
    [embed_dim > min(n, d)]. *)
Theorem apply_rank_threshold (svd : DMatrix R -> SVD R) (self : KernelPca R)
  (data : list (list R)) :
  svd_shaped svd -> validate self data = Ret tt ->
  ((embed_dim self <= Nat.min (length data) (length (nth 0 data [])))%nat ->
   exists e, apply svd self data = Ret e /\ length e = length data /\
             Forall (fun row => length row = embed_dim self) e) /\
  ((Nat.min (length data) (length (nth 0 data [])) < embed_dim self)%nat ->
   apply svd self data = Panic).
Proof.
  intros Hs Hv. split; intros Hk.
  - exact (apply_shape_within_rank svd self data Hs Hv Hk).
  - exact (apply_panics_beyond_rank svd self data Hs Hv Hk).
Qed.

Lemma apply_rank_threshold_witness :
  svd_shaped svd_zero /\ validate (se1 1) two_points = Ret tt /\
  (((embed_dim (se1 1) <= Nat.min (length two_points) (length (nth 0 two_points [])))%nat ->
    exists e, apply svd_zero (se1 1) two_points = Ret e /\ length e = length two_points /\
              Forall (fun row => length row = embed_dim (se1 1)) e) /\
   ((Nat.min (length two_points) (length (nth 0 two_points [])) < embed_dim (se1 1))%nat ->
    apply svd_zero (se1 1) two_points = Panic)).
Proof.
  split; [exact svd_zero_shaped|]. split; [reflexivity|].
  apply apply_rank_threshold; [exact svd_zero_shaped | reflexivity].
Defined.

(** On the linear path, for a valid input whose centered data matrix has a
    decomposition with [u] and at least [embed_dim] singular values and
    columns of [u], entry [(i, j)] of the embedding is
    [u[i][j] * s_j * sign_j], the singular value itself, unsquared. *)
Theorem linear_path_embedding (svd : DMatrix R -> SVD R) (self : KernelPca R)
  (data : list (list R)) (x : DMatrix R) (sv : list R) (um : DMatrix R) :
  kernel self = Linear -> validate self data = Ret tt ->
  center_data data = Ret x ->
  svd x = mkSVD sv (Some um) ->
  (embed_dim self <= length sv)%nat -> (embed_dim self <= ncols um)%nat ->
  apply svd self data =
  Ret (map (fun i => map (fun j => get um i j * nth j sv 0 * column_sign (column_entries um j))
                         (seq 0 (embed_dim self)))
           (seq 0 (nrows um))).
Proof.
  intros Hlin Hv Hx Hsvd Hk1 Hk2. rewrite apply_finish, Hv. cbn [bind].
  replace (centered_input self data) with (Ret x : outcome (DMatrix R))
    by (unfold centered_input; rewrite Hlin; exact (eq_sym Hx)).
  cbn [bind]. rewrite Hsvd, finish_ret by assumption.
  unfold embedding_of, column_scale. rewrite Hlin. reflexivity.
Qed.

Lemma linear_path_embedding_witness :
  exists x,
    kernel (lin 1) = Linear /\
    validate (lin 1) [[0]; [1]] = Ret tt /\
    center_data [[0]; [1]] = Ret x /\
    svd_zero x = mkSVD [0] (Some (mkMat 2 1 (fun _ _ => 0))) /\
    (embed_dim (lin 1) <= length [0])%nat /\
    (embed_dim (lin 1) <= ncols (mkMat 2 1 (fun _ _ => 0)))%nat /\
    apply svd_zero (lin 1) [[0]; [1]] =
    Ret (map (fun i => map (fun j => get (mkMat 2 1 (fun _ _ => 0)) i j * nth j [0] 0 *
                                     column_sign (column_entries (mkMat 2 1 (fun _ _ => 0)) j))
                           (seq 0 (embed_dim (lin 1))))
             (seq 0 (nrows (mkMat 2 1 (fun _ _ => 0))))).
Proof.
  eexists.
  split; [reflexivity|]. split; [reflexivity|]. split; [reflexivity|]. split; [reflexivity|].
  split; [simpl; lia|]. split; [simpl; lia|].
  eapply (linear_path_embedding svd_zero);
    [reflexivity | reflexivity | reflexivity | reflexivity | simpl; lia | simpl; lia].
Defined.

(** Past validation, [apply] first takes [embed_dim] singular values, which
    panics when the decomposition has fewer, and only then asks for [u]: a
    decomposition without [u] but with enough singular values gives
    [ComputationFailure("SVD Failure")]. *)
Theorem apply_after_decomposition (svd : DMatrix R -> SVD R) (self : KernelPca R)
  (data : list (list R)) (x : DMatrix R) :
  validate self data = Ret tt -> centered_input self data = Ret x ->
  ((length (singular_values (svd x)) < embed_dim self)%nat -> apply svd self data = Panic) /\
  (u (svd x) = None -> (embed_dim self <= length (singular_values (svd x)))%nat ->
   apply svd self data = Raise (computation_failure "SVD Failure")).
Proof.
  intros Hv Hx. rewrite apply_finish, Hv. cbn [bind]. rewrite Hx. cbn [bind].
  unfold finish, vec_rows. destruct (svd x) as [sv u0]. simpl singular_values. simpl u.
  split.
  - intros Hk. replace (0 + embed_dim self <=? length sv) with false
      by (symmetry; apply Nat.leb_gt; lia). reflexivity.
  - intros Hu Hk. subst u0. replace (0 + embed_dim self <=? length sv) with true
      by (symmetry; apply Nat.leb_le; lia). reflexivity.
Qed.

Lemma apply_after_decomposition_witness :
  exists x,
    validate (se1 1) two_points = Ret tt /\
    centered_input (se1 1) two_points = Ret x /\
    ((length (singular_values (svd_without_u x)) < embed_dim (se1 1))%nat ->
     apply svd_without_u (se1 1) two_points = Panic) /\
    (u (svd_without_u x) = None ->
     (embed_dim (se1 1) <= length (singular_values (svd_without_u x)))%nat ->
     apply svd_without_u (se1 1) two_points =
     Raise (computation_failure "SVD Failure")).
Proof.
  eexists. split; [reflexivity|]. split; [reflexivity|].
  apply apply_after_decomposition; reflexivity.
Defined.

Lemma firstn_seq_le (k s n : nat) : (k <= n)%nat -> firstn k (seq s n) = seq s k.
Proof.
  revert s n; induction k as [|k IH]; intros s n Hk; [reflexivity|].
  destruct n as [|n]; [lia|]. simpl. f_equal. apply IH. lia.
Qed.

(** Lowering [embed_dim] to any [k >= 1] keeps the first [k] columns of a
    successful embedding: each row of the new result is the prefix of length
    [k] of the old row. *)
Theorem apply_embed_dim_prefix (svd : DMatrix R -> SVD R) (self : KernelPca R)
  (data : list (list R)) (k : nat) (e : list (list R)) :
  (1 <= k <= embed_dim self)%nat -> apply svd self data = Ret e ->
  apply svd (mkKernelPca (kernel self) k) data = Ret (map (firstn k) e).
Proof.
  intros Hk Ha. rewrite apply_finish in Ha |- *.
  destruct (validate self data) as [[]|e'|] eqn:Ev; cbn [bind] in Ha; try discriminate.
  destruct (validate_ok_inv self data Ev) as [Hne [Hf Hd]].
  rewrite (validate_rect (mkKernelPca (kernel self) k) data (length (nth 0 data []))) by (simpl; lia || assumption).
  cbn [bind].
  change (centered_input (mkKernelPca (kernel self) k) data) with (centered_input self data).
  destruct (centered_input self data) as [x| |]; cbn [bind] in Ha |- *; try discriminate.
  destruct (finish_inv _ _ _ Ha) as [sv [um [Es [H1 H2]]]]. rewrite Es in Ha |- *.
  rewrite finish_ret in Ha by assumption. injection Ha as <-.
  rewrite finish_ret by (simpl; lia). simpl kernel. simpl embed_dim.
  unfold embedding_of. rewrite map_map. f_equal. apply map_ext. intros i.
  rewrite firstn_map, firstn_seq_le by lia. reflexivity.
Qed.

Lemma apply_embed_dim_prefix_witness :
  exists e,
    (1 <= 1 <= embed_dim (se1 2))%nat /\
    apply svd_zero (se1 2) two_points = Ret e /\
    apply svd_zero (mkKernelPca (kernel (se1 2)) 1) two_points = Ret (map (firstn 1) e).
Proof.
  eexists. split; [simpl; lia|]. split; [reflexivity|].
  apply apply_embed_dim_prefix; [simpl; lia | reflexivity].
Defined.

(** *** Translating the data. *)

Lemma mat_ext (a b : DMatrix R) :
  nrows a = nrows b -> ncols a = ncols b -> (forall i j, get a i j = get b i j) -> a = b.
Proof.
  destruct a as [ra ca ga], b as [rb cb gb]. simpl. intros -> -> Hg. f_equal.
  extensionality i. extensionality j. apply Hg.
Qed.

Lemma check_rows_lengths (dim : nat) (d1 d2 : list (list R)) :
  map (@length R) d1 = map (@length R) d2 -> check_rows dim d1 = check_rows dim d2.
Proof.
  revert d2; induction d1 as [|r1 d1 IH]; intros [|r2 d2] Hm; try discriminate; [reflexivity|].
  injection Hm as Hr Hm. simpl. rewrite Hr, (IH d2 Hm). reflexivity.
Qed.

Lemma first_length (d1 d2 : list (list R)) :
  map (@length R) d1 = map (@length R) d2 -> length (nth 0 d1 []) = length (nth 0 d2 []).
Proof.
  intros Hm. rewrite <- (map_nth (@length R) d1 [] 0), <- (map_nth (@length R) d2 [] 0), Hm.
  reflexivity.
Qed.

Lemma validate_lengths (self : KernelPca R) (d1 d2 : list (list R)) :
  map (@length R) d1 = map (@length R) d2 -> validate self d1 = validate self d2.
Proof.
  intros Hm. unfold validate.
  assert (Hl : length d1 = length d2)
    by (rewrite <- (length_map (@length R) d1), <- (length_map (@length R) d2), Hm; reflexivity).
  rewrite Hl, (first_length d1 d2 Hm), (check_rows_lengths _ d1 d2 Hm). reflexivity.
Qed.

Lemma shift_lengths (c : list R) (data : list (list R)) :
  Forall (fun row => length row = length c) data ->
  map (@length R) (map (shift c) data) = map (@length R) data.
Proof.
  intros Hf. rewrite map_map. apply map_ext_in. intros row Hrow.
  rewrite Forall_forall in Hf. rewrite shift_length, (Hf row Hrow) by (apply Hf; exact Hrow).
  reflexivity.
Qed.

Lemma sum_const_list {A} (c : R) (l : list A) : sum_list (map (fun _ => c) l) = INR (length l) * c.
Proof.
  induction l as [|a l IH]; simpl; [ring|]. rewrite IH.
  destruct (length l); simpl; ring.
Qed.

Lemma center_data_shift (c : list R) (data : list (list R)) :
  Forall (fun row => length row = length c) data ->
  center_data (map (shift c) data) = center_data data.
Proof.
  intros Hf. destruct data as [|r0 rest] eqn:Ed; [reflexivity|]. rewrite <- Ed in *.
  assert (Hd : length (nth 0 data []) = length c)
    by (subst data; inversion Hf; assumption).
  assert (Hn : INR (length data) <> 0) by (apply not_0_INR; subst data; discriminate).
  clear r0 rest Ed.
  unfold center_data. rewrite length_map, (first_length _ _ (shift_lengths c data Hf)), Hd.
  cbn [from_usize R_Float].
  assert (Hle : forall dd : list (list R), Forall (fun row => length row = length c) dd ->
                Forall (fun row => (length row <= length (repeat fzero (length c)))%nat) dd)
    by (intros dd Hdd; eapply Forall_impl; [|exact Hdd]; simpl; intros r Hr; rewrite repeat_length; lia).
  assert (Hf1 : Forall (fun row => length row = length c) (map (shift c) data)).
  { apply Forall_map. eapply Forall_impl; [|exact Hf]. simpl. intros r Hr. apply shift_length, Hr. }
  destruct (accumulate_nth (map (shift c) data) (repeat fzero (length c)) (Hle _ Hf1)) as [m1 [E1 [L1 N1]]].
  destruct (accumulate_nth data (repeat fzero (length c)) (Hle _ Hf)) as [m0 [E0 [L0 N0]]].
  rewrite E1, E0. cbn [bind]. rewrite repeat_length in L1, L0.
  f_equal. f_equal. rewrite map_map. apply map_ext_in. intros row Hrow.
  assert (Hr : length row = length c) by (rewrite Forall_forall in Hf; apply Hf, Hrow).
  apply nth_ext with (d := 0) (d' := 0).
  { rewrite !length_firstn, !length_map, !length_combine, !length_map, L1, L0, shift_length by exact Hr.
    lia. }
  intros q Hq. rewrite length_firstn, length_map, length_combine, length_map, L1, shift_length in Hq by exact Hr.
  assert (Hqc : (q < length c)%nat) by lia.
  rewrite !nth_firstn. replace (q <? length c) with true by (symmetry; apply Nat.ltb_lt; exact Hqc).
  rewrite (nth_map_lt _ _ _ (0, 0)) by (rewrite length_combine, length_map, L1, shift_length by exact Hr; lia).
  rewrite (nth_map_lt _ _ _ (0, 0)) by (rewrite length_combine, length_map, L0; lia).
  rewrite !combine_nth by (rewrite length_map; rewrite ?L1, ?L0, ?shift_length by exact Hr; lia).
  cbn [fsub fdiv R_Float].
  rewrite (nth_map_lt _ _ _ 0) by (rewrite L1; exact Hqc).
  rewrite (nth_map_lt _ _ _ 0) by (rewrite L0; exact Hqc).
  rewrite N1, N0, nth_repeat, shift_nth by assumption. cbn [fzero R_Float].
  rewrite map_map.
  rewrite (sum_ext_in _ (fun r => nth q r 0 + nth q c 0)).
  2:{ intros r Hr'. apply shift_nth; [|exact Hqc]. rewrite Forall_forall in Hf. apply Hf, Hr'. }
  rewrite sum_add, sum_const_list. field. exact Hn.
Qed.

Lemma form_kernel_matrix_shift (self : KernelPca R) (c : list R) (data : list (list R)) :
  kernel self <> Linear -> Forall (fun row => length row = length c) data ->
  form_kernel_matrix self (map (shift c) data) = form_kernel_matrix self data.
Proof.
  intros Hk Hf.
  destruct (form_kernel_matrix_spec self (map (shift c) data)) as [R1 [C1 G1]].
  destruct (form_kernel_matrix_spec self data) as [R0 [C0 G0]].
  rewrite length_map in R1, C1, G1.
  apply mat_ext; [congruence | congruence |]. intros a b. rewrite G1, G0.
  destruct (Nat.ltb_spec a (length data)), (Nat.ltb_spec b (length data)); simpl; try reflexivity.
  unfold km_entry. rewrite Forall_forall in Hf.
  rewrite !(nth_map_lt _ _ _ []) by lia.
  apply compute_shift; [exact Hk | apply Hf, nth_In; lia | apply Hf, nth_In; lia].
Qed.

(** Translating every record by the same vector [c] (of the records' width)
    does not change the result of [apply], whatever the kernel: validation
    depends only on the row widths, the linear path subtracts the column
    means, and the other kernels depend only on differences of records. *)
Theorem apply_translation_invariant (svd : DMatrix R -> SVD R) (self : KernelPca R)
  (data : list (list R)) (c : list R) :
  Forall (fun row => length row = length c) data ->
  apply svd self (map (shift c) data) = apply svd self data.
Proof.
  intros Hf. rewrite !apply_finish, (validate_lengths self _ _ (shift_lengths c data Hf)).
  replace (centered_input self (map (shift c) data)) with (centered_input self data); [reflexivity|].
  unfold centered_input. destruct (kernel self) eqn:Ek.
  - symmetry. exact (center_data_shift c data Hf).
  - rewrite form_kernel_matrix_shift by (rewrite ?Ek; (discriminate || exact Hf)). reflexivity.
  - rewrite form_kernel_matrix_shift by (rewrite ?Ek; (discriminate || exact Hf)). reflexivity.
Qed.

Lemma apply_translation_invariant_witness :
  Forall (fun row => length row = length [5; 7]) two_points /\
  apply svd_zero (lin 1) (map (shift [5; 7]) two_points) = apply svd_zero (lin 1) two_points /\
  apply svd_zero (se1 1) (map (shift [5; 7]) two_points) = apply svd_zero (se1 1) two_points.
Proof.
  assert (Hf : Forall (fun row => length row = length [5; 7]) two_points) by (repeat constructor).
  split; [exact Hf|]. split; apply apply_translation_invariant; exact Hf.
Defined.

Lemma apply_error_cases_witness :
  apply svd_zero (se1 0) two_points = Raise (invalid_config "Embedding dimension must be positive") /\
  ((validate (se1 0) two_points = Raise (invalid_config "Embedding dimension must be positive") /\
    In (invalid_config "Embedding dimension must be positive") validation_errors) \/
   (validate (se1 0) two_points = Ret tt /\
    invalid_config "Embedding dimension must be positive" = computation_failure "SVD Failure")).
Proof. split; [reflexivity|]. apply (proj2 apply_error_cases svd_zero). reflexivity. Defined.
